(** * ArchiverRegistry: stake ledger, reward accumulator and challenges

    A shallow embedding of [contracts/ArchiverRegistry.sol].  Storage is an
    explicit [State] record, every external function is a Rocq function
    from a message envelope and a state to a [result], and Solidity 0.8
    checked arithmetic is written out: an operation whose mathematical
    result leaves [0, 2^256) reverts with [Panic].  A reverted call leaves
    storage as it was ([execute]). *)

From Stdlib Require Import ZArith Lia String List FunctionalExtensionality.
From stdpp Require Import gmap list fin_maps strings.

Open Scope Z_scope.

(** Solidity value types.  Addresses and 32-byte hashes are opaque keys. *)
Abbreviation address := N (only parsing).
Abbreviation bytes32 := N (only parsing).
Abbreviation uint256 := Z (only parsing).

(** ** Constants *)

Definition MAX_UINT256 : Z :=
  115792089237316195423570985008687907853269984665640564039457584007913129639935.
Definition MIN_STAKE : Z := 100000000000000000.        (* 0.1 ether *)
Definition CHALLENGE_PERIOD : Z := 86400.              (* 24 hours *)
Definition SLASH_PERCENT : Z := 10.
Definition CHALLENGE_BOND : Z := 10000000000000000.    (* 0.01 ether *)
Definition SCALE : Z := 1000000000000000000.           (* the literal 1e18 *)

(** ** Errors and the result monad *)

Inductive Error :=
| InsufficientStake
| ArchiverNotActive
| ArchiverAlreadyRegistered
| NotAnArchiver
| ChallengeNotFound
| ChallengeAlreadyResolved
| ChallengePeriodNotExpired
| InvalidBond
| WithdrawalExceedsStake
| StakeBelowMinimum
| TransferFailed                 (* require(success, "Transfer failed") *)
| OwnableUnauthorizedAccount     (* onlyOwner *)
| NonPayable                     (* value sent to a function that is not payable *)
| ReentrancyGuardReentrantCall   (* nonReentrant, entered a second time *)
| Panic.                         (* checked arithmetic, array bounds, pop of [] *)

Inductive result (A : Type) :=
| Ok (a : A)
| Err (e : Error).
Arguments Ok {A} a.
Arguments Err {A} e.

Definition bind {A B} (r : result A) (k : A -> result B) : result B :=
  match r with
  | Ok a => k a
  | Err e => Err e
  end.

Notation "x <- e ;; k" := (bind e (fun x => k))
  (at level 100, e at next level, right associativity).

Definition is_ok {A} (r : result A) : bool :=
  match r with Ok _ => true | Err _ => false end.

(** ** Checked uint256 arithmetic *)

Definition in_range (x : Z) : bool := (0 <=? x) && (x <=? MAX_UINT256).

Definition checked (x : Z) : result Z :=
  if in_range x then Ok x else Err Panic.

Definition add (a b : Z) : result Z := checked (a + b).
Definition sub (a b : Z) : result Z := checked (a - b).
Definition mul (a b : Z) : result Z := checked (a * b).

(** ** Data model *)

Record Archiver := mkArchiver {
  stake : uint256;
  registeredAt : uint256;
  lastClaimAt : uint256;
  blobCount : uint256;
  successfulChallenges : uint256;
  failedChallenges : uint256;
  active : bool;
  endpoint : string
}.

Record Challenge := mkChallenge {
  challenger : address;
  archiver : address;
  blobHash : bytes32;
  deadline : uint256;
  resolved : bool;
  archiverWon : bool
}.

(** The value a mapping holds at a key never written. *)
Definition emptyArchiver : Archiver := mkArchiver 0 0 0 0 0 0 false EmptyString.
Definition emptyChallenge : Challenge := mkChallenge 0%N 0%N 0%N 0 false false.

Inductive Event :=
| ArchiverRegistered (a : address) (amount : uint256) (ep : string) (ts : uint256)
| StakeAdded (a : address) (amount newTotal : uint256)
| StakeWithdrawn (a : address) (amount newTotal : uint256)
| ArchiverDeactivated (a : address) (ts : uint256)
| BlobCommitted (a : address) (h : bytes32) (ts : uint256)
| ChallengeCreated (id : uint256) (c a : address) (h : bytes32)
| ChallengeResolved (id : uint256) (won : bool) (slashAmount : uint256)
| RewardsClaimed (a : address) (amount : uint256)
| RewardPoolFunded (funder : address) (amount : uint256).

(** Contract storage, followed by what the chain keeps for the contract:
    its owner (Ownable), its ether balance, the value transfers it made and
    the events it emitted (newest first). *)
Record State := mkState {
  archivers : gmap N Archiver;
  activeArchivers : list N;
  archiverIndex : gmap N Z;
  challenges : gmap Z Challenge;
  nextChallengeId : uint256;
  totalStake : uint256;
  rewardPool : uint256;
  accRewardPerStake : uint256;
  rewardDebt : gmap N Z;
  feeRecipient : address;
  blobArchivers : gmap N (list N);
  owner : address;
  balance : Z;
  sent : list (N * Z);
  events : list Event
}.

(** constructor(address _feeRecipient) Ownable(msg.sender) *)
Definition init (deployer recipient : address) : State :=
  mkState ∅ [] ∅ ∅ 0 0 0 0 ∅ recipient ∅ deployer 0 [] [].

(** *** Field updates *)

Definition set_stake (v : Z) (a : Archiver) : Archiver :=
  mkArchiver v (registeredAt a) (lastClaimAt a) (blobCount a)
    (successfulChallenges a) (failedChallenges a) (active a) (endpoint a).
Definition set_lastClaimAt (v : Z) (a : Archiver) : Archiver :=
  mkArchiver (stake a) (registeredAt a) v (blobCount a)
    (successfulChallenges a) (failedChallenges a) (active a) (endpoint a).
Definition set_blobCount (v : Z) (a : Archiver) : Archiver :=
  mkArchiver (stake a) (registeredAt a) (lastClaimAt a) v
    (successfulChallenges a) (failedChallenges a) (active a) (endpoint a).
Definition set_successfulChallenges (v : Z) (a : Archiver) : Archiver :=
  mkArchiver (stake a) (registeredAt a) (lastClaimAt a) (blobCount a)
    v (failedChallenges a) (active a) (endpoint a).
Definition set_failedChallenges (v : Z) (a : Archiver) : Archiver :=
  mkArchiver (stake a) (registeredAt a) (lastClaimAt a) (blobCount a)
    (successfulChallenges a) v (active a) (endpoint a).
Definition set_active (v : bool) (a : Archiver) : Archiver :=
  mkArchiver (stake a) (registeredAt a) (lastClaimAt a) (blobCount a)
    (successfulChallenges a) (failedChallenges a) v (endpoint a).

Definition set_resolved (v : bool) (c : Challenge) : Challenge :=
  mkChallenge (challenger c) (archiver c) (blobHash c) (deadline c) v (archiverWon c).
Definition set_archiverWon (v : bool) (c : Challenge) : Challenge :=
  mkChallenge (challenger c) (archiver c) (blobHash c) (deadline c) (resolved c) v.

Definition set_archivers (v : gmap N Archiver) (s : State) : State :=
  mkState v (activeArchivers s) (archiverIndex s) (challenges s)
    (nextChallengeId s) (totalStake s) (rewardPool s) (accRewardPerStake s)
    (rewardDebt s) (feeRecipient s) (blobArchivers s) (owner s) (balance s)
    (sent s) (events s).
Definition set_activeArchivers (v : list N) (s : State) : State :=
  mkState (archivers s) v (archiverIndex s) (challenges s)
    (nextChallengeId s) (totalStake s) (rewardPool s) (accRewardPerStake s)
    (rewardDebt s) (feeRecipient s) (blobArchivers s) (owner s) (balance s)
    (sent s) (events s).
Definition set_archiverIndex (v : gmap N Z) (s : State) : State :=
  mkState (archivers s) (activeArchivers s) v (challenges s)
    (nextChallengeId s) (totalStake s) (rewardPool s) (accRewardPerStake s)
    (rewardDebt s) (feeRecipient s) (blobArchivers s) (owner s) (balance s)
    (sent s) (events s).
Definition set_challenges (v : gmap Z Challenge) (s : State) : State :=
  mkState (archivers s) (activeArchivers s) (archiverIndex s) v
    (nextChallengeId s) (totalStake s) (rewardPool s) (accRewardPerStake s)
    (rewardDebt s) (feeRecipient s) (blobArchivers s) (owner s) (balance s)
    (sent s) (events s).
Definition set_nextChallengeId (v : Z) (s : State) : State :=
  mkState (archivers s) (activeArchivers s) (archiverIndex s) (challenges s)
    v (totalStake s) (rewardPool s) (accRewardPerStake s)
    (rewardDebt s) (feeRecipient s) (blobArchivers s) (owner s) (balance s)
    (sent s) (events s).
Definition set_totalStake (v : Z) (s : State) : State :=
  mkState (archivers s) (activeArchivers s) (archiverIndex s) (challenges s)
    (nextChallengeId s) v (rewardPool s) (accRewardPerStake s)
    (rewardDebt s) (feeRecipient s) (blobArchivers s) (owner s) (balance s)
    (sent s) (events s).
Definition set_rewardPool (v : Z) (s : State) : State :=
  mkState (archivers s) (activeArchivers s) (archiverIndex s) (challenges s)
    (nextChallengeId s) (totalStake s) v (accRewardPerStake s)
    (rewardDebt s) (feeRecipient s) (blobArchivers s) (owner s) (balance s)
    (sent s) (events s).
Definition set_accRewardPerStake (v : Z) (s : State) : State :=
  mkState (archivers s) (activeArchivers s) (archiverIndex s) (challenges s)
    (nextChallengeId s) (totalStake s) (rewardPool s) v
    (rewardDebt s) (feeRecipient s) (blobArchivers s) (owner s) (balance s)
    (sent s) (events s).
Definition set_rewardDebt (v : gmap N Z) (s : State) : State :=
  mkState (archivers s) (activeArchivers s) (archiverIndex s) (challenges s)
    (nextChallengeId s) (totalStake s) (rewardPool s) (accRewardPerStake s)
    v (feeRecipient s) (blobArchivers s) (owner s) (balance s)
    (sent s) (events s).
Definition set_feeRecipient (v : N) (s : State) : State :=
  mkState (archivers s) (activeArchivers s) (archiverIndex s) (challenges s)
    (nextChallengeId s) (totalStake s) (rewardPool s) (accRewardPerStake s)
    (rewardDebt s) v (blobArchivers s) (owner s) (balance s)
    (sent s) (events s).
Definition set_blobArchivers (v : gmap N (list N)) (s : State) : State :=
  mkState (archivers s) (activeArchivers s) (archiverIndex s) (challenges s)
    (nextChallengeId s) (totalStake s) (rewardPool s) (accRewardPerStake s)
    (rewardDebt s) (feeRecipient s) v (owner s) (balance s)
    (sent s) (events s).
Definition set_balance (v : Z) (s : State) : State :=
  mkState (archivers s) (activeArchivers s) (archiverIndex s) (challenges s)
    (nextChallengeId s) (totalStake s) (rewardPool s) (accRewardPerStake s)
    (rewardDebt s) (feeRecipient s) (blobArchivers s) (owner s) v
    (sent s) (events s).
Definition set_sent (v : list (N * Z)) (s : State) : State :=
  mkState (archivers s) (activeArchivers s) (archiverIndex s) (challenges s)
    (nextChallengeId s) (totalStake s) (rewardPool s) (accRewardPerStake s)
    (rewardDebt s) (feeRecipient s) (blobArchivers s) (owner s) (balance s)
    v (events s).
Definition set_events (v : list Event) (s : State) : State :=
  mkState (archivers s) (activeArchivers s) (archiverIndex s) (challenges s)
    (nextChallengeId s) (totalStake s) (rewardPool s) (accRewardPerStake s)
    (rewardDebt s) (feeRecipient s) (blobArchivers s) (owner s) (balance s)
    (sent s) v.

(** *** Reading mappings: an absent key reads as the zero value *)

Definition archiverOf (s : State) (a : address) : Archiver :=
  default emptyArchiver (archivers s !! a).
Definition challengeOf (s : State) (id : uint256) : Challenge :=
  default emptyChallenge (challenges s !! id).
Definition rewardDebtOf (s : State) (a : address) : uint256 :=
  default 0 (rewardDebt s !! a).
Definition archiverIndexOf (s : State) (a : address) : uint256 :=
  default 0 (archiverIndex s !! a).
Definition blobArchiversOf (s : State) (h : bytes32) : list N :=
  default [] (blobArchivers s !! h).

(** A write through a storage pointer [Archiver storage x = archivers[a]]. *)
Definition modifyArchiver (a : address) (f : Archiver -> Archiver) (s : State) : State :=
  set_archivers (<[a := f (archiverOf s a)]> (archivers s)) s.
Definition modifyChallenge (id : uint256) (f : Challenge -> Challenge) (s : State) : State :=
  set_challenges (<[id := f (challengeOf s id)]> (challenges s)) s.

Definition emit (e : Event) (s : State) : State :=
  set_events (e :: events s) s.

(** [payable(to).call{value: amount}("")] followed by [require(success)],
    for a recipient that is an externally owned account: the call fails
    when the contract does not hold [amount], and no code runs at the
    recipient.  [send_cb] in the part on re-entrancy is the same transfer
    to a recipient whose code runs, and the functions below are the
    functions there at the recipient that does nothing. *)
Definition send (to : address) (amount : uint256) (s : State) : result State :=
  if amount <=? balance s
  then Ok (set_sent ((to, amount) :: sent s) (set_balance (balance s - amount) s))
  else Err TransferFailed.

(** The value of a payable call is credited before the body runs. *)
Definition credit (value : uint256) (s : State) : State :=
  set_balance (balance s + value) s.

(** ** Calls *)

(** What the chain supplies with a call. *)
Record Msg := mkMsg {
  msg_sender : address;
  msg_value : uint256;
  block_timestamp : uint256
}.

(** *** Internal functions *)

Definition _claimRewards (archiverAddr : address) (now : uint256) (s : State)
  : result State :=
  if stake (archiverOf s archiverAddr) =? 0 then Ok s else
  prod <- mul (stake (archiverOf s archiverAddr)) (accRewardPerStake s) ;;
  let accumulated := prod / SCALE in
  pending <- sub accumulated (rewardDebtOf s archiverAddr) ;;
  if 0 <? pending then
    let s1 := set_rewardDebt (<[archiverAddr := accumulated]> (rewardDebt s)) s in
    let s2 := modifyArchiver archiverAddr (set_lastClaimAt now) s1 in
    s3 <- send archiverAddr pending s2 ;;
    Ok (emit (RewardsClaimed archiverAddr pending) s3)
  else Ok s.

(** [activeArchivers.pop()] reverts on an empty array. *)
Definition pop (s : State) : result State :=
  match activeArchivers s with
  | [] => Err Panic
  | _ :: _ => Ok (set_activeArchivers (removelast (activeArchivers s)) s)
  end.

Definition _deactivateArchiver (archiverAddr : address) (now : uint256) (s : State)
  : result State :=
  let s1 := modifyArchiver archiverAddr (set_active false) s in
  let index := archiverIndexOf s1 archiverAddr in
  s2 <- (if 0 <? index then
           let lastIndex := Z.of_nat (length (activeArchivers s1)) in
           s' <- (if index <? lastIndex then
                    match activeArchivers s1 !! Z.to_nat (lastIndex - 1) with
                    | Some lastArchiver =>
                        let s'' := set_activeArchivers
                                     (<[Z.to_nat (index - 1) := lastArchiver]>
                                        (activeArchivers s1)) s1 in
                        Ok (set_archiverIndex
                              (<[lastArchiver := index]> (archiverIndex s'')) s'')
                    | None => Err Panic
                    end
                  else Ok s1) ;;
           s'' <- pop s' ;;
           Ok (set_archiverIndex (<[archiverAddr := 0]> (archiverIndex s'')) s'')
         else Ok s1) ;;
  Ok (emit (ArchiverDeactivated archiverAddr now) s2).

(** *** Archiver registration *)

Definition register (ep : string) (m : Msg) (s0 : State) : result State :=
  let s := credit (msg_value m) s0 in
  if msg_value m <? MIN_STAKE then Err InsufficientStake else
  if negb (registeredAt (archiverOf s (msg_sender m)) =? 0)
  then Err ArchiverAlreadyRegistered else
  let s1 := set_archivers
              (<[msg_sender m :=
                   mkArchiver (msg_value m) (block_timestamp m) (block_timestamp m)
                     0 0 0 true ep]> (archivers s)) s in
  let s2 := set_activeArchivers (activeArchivers s1 ++ [msg_sender m]) s1 in
  let s3 := set_archiverIndex
              (<[msg_sender m := Z.of_nat (length (activeArchivers s2))]>
                 (archiverIndex s2)) s2 in
  total <- add (totalStake s3) (msg_value m) ;;
  let s4 := set_totalStake total s3 in
  prod <- mul (msg_value m) (accRewardPerStake s4) ;;
  let s5 := set_rewardDebt (<[msg_sender m := prod / SCALE]> (rewardDebt s4)) s4 in
  Ok (emit (ArchiverRegistered (msg_sender m) (msg_value m) ep (block_timestamp m)) s5).

Definition addStake (m : Msg) (s0 : State) : result State :=
  let s := credit (msg_value m) s0 in
  if registeredAt (archiverOf s (msg_sender m)) =? 0 then Err NotAnArchiver else
  (* Claim pending rewards before stake change *)
  s1 <- _claimRewards (msg_sender m) (block_timestamp m) s ;;
  newStake <- add (stake (archiverOf s1 (msg_sender m))) (msg_value m) ;;
  let s2 := modifyArchiver (msg_sender m) (set_stake newStake) s1 in
  total <- add (totalStake s2) (msg_value m) ;;
  let s3 := set_totalStake total s2 in
  prod <- mul (stake (archiverOf s3 (msg_sender m))) (accRewardPerStake s3) ;;
  let s4 := set_rewardDebt (<[msg_sender m := prod / SCALE]> (rewardDebt s3)) s3 in
  Ok (emit (StakeAdded (msg_sender m) (msg_value m)
              (stake (archiverOf s4 (msg_sender m)))) s4).

Definition withdrawStake (amount : uint256) (m : Msg) (s : State) : result State :=
  if registeredAt (archiverOf s (msg_sender m)) =? 0 then Err NotAnArchiver else
  if stake (archiverOf s (msg_sender m)) <? amount then Err WithdrawalExceedsStake else
  newStake <- sub (stake (archiverOf s (msg_sender m))) amount ;;
  if (0 <? newStake) && (newStake <? MIN_STAKE) then Err StakeBelowMinimum else
  (* Claim pending rewards before stake change *)
  s1 <- _claimRewards (msg_sender m) (block_timestamp m) s ;;
  let s2 := modifyArchiver (msg_sender m) (set_stake newStake) s1 in
  total <- sub (totalStake s2) amount ;;
  let s3 := set_totalStake total s2 in
  prod <- mul newStake (accRewardPerStake s3) ;;
  let s4 := set_rewardDebt (<[msg_sender m := prod / SCALE]> (rewardDebt s3)) s3 in
  (* If fully withdrawn, deactivate *)
  s5 <- (if newStake =? 0
         then _deactivateArchiver (msg_sender m) (block_timestamp m) s4
         else Ok s4) ;;
  s6 <- send (msg_sender m) amount s5 ;;
  Ok (emit (StakeWithdrawn (msg_sender m) amount newStake) s6).

Definition deactivate (m : Msg) (s : State) : result State :=
  if negb (active (archiverOf s (msg_sender m))) then Err ArchiverNotActive else
  _deactivateArchiver (msg_sender m) (block_timestamp m) s.

(** *** Blob commitment *)

(** The body shared by [commitToBlob] and the loop of [batchCommitToBlobs]:
    push the sender on the blob's list, count it, emit. *)
Definition commitOne (h : bytes32) (m : Msg) (s : State) : result State :=
  let s1 := set_blobArchivers
              (<[h := blobArchiversOf s h ++ [msg_sender m]]> (blobArchivers s)) s in
  count <- add (blobCount (archiverOf s1 (msg_sender m))) 1 ;;
  let s2 := modifyArchiver (msg_sender m) (set_blobCount count) s1 in
  Ok (emit (BlobCommitted (msg_sender m) h (block_timestamp m)) s2).

Definition commitToBlob (h : bytes32) (m : Msg) (s : State) : result State :=
  if negb (active (archiverOf s (msg_sender m))) then Err ArchiverNotActive else
  commitOne h m s.

Fixpoint commitAll (hs : list N) (m : Msg) (s : State) : result State :=
  match hs with
  | [] => Ok s
  | h :: rest => s1 <- commitOne h m s ;; commitAll rest m s1
  end.

Definition batchCommitToBlobs (hs : list N) (m : Msg) (s : State) : result State :=
  if negb (active (archiverOf s (msg_sender m))) then Err ArchiverNotActive else
  commitAll hs m s.

(** *** Challenge system *)

Definition createChallenge (archiverAddr : address) (h : bytes32) (m : Msg) (s0 : State)
  : result (uint256 * State) :=
  let s := credit (msg_value m) s0 in
  if negb (msg_value m =? CHALLENGE_BOND) then Err InvalidBond else
  if negb (active (archiverOf s archiverAddr)) then Err ArchiverNotActive else
  let challengeId := nextChallengeId s in
  next <- add (nextChallengeId s) 1 ;;
  let s1 := set_nextChallengeId next s in
  dl <- add (block_timestamp m) CHALLENGE_PERIOD ;;
  let s2 := set_challenges
              (<[challengeId :=
                   mkChallenge (msg_sender m) archiverAddr h dl false false]>
                 (challenges s1)) s1 in
  Ok (challengeId, emit (ChallengeCreated challengeId (msg_sender m) archiverAddr h) s2).

Definition resolveChallenge (challengeId : uint256) (archiverHasData : bool)
    (m : Msg) (s : State) : result State :=
  if negb (msg_sender m =? owner s)%N then Err OwnableUnauthorizedAccount else
  if deadline (challengeOf s challengeId) =? 0 then Err ChallengeNotFound else
  if resolved (challengeOf s challengeId) then Err ChallengeAlreadyResolved else
  let s1 := modifyChallenge challengeId (set_resolved true) s in
  let s2 := modifyChallenge challengeId (set_archiverWon archiverHasData) s1 in
  let who := archiver (challengeOf s2 challengeId) in
  if archiverHasData then
    (* Archiver wins - gets challenge bond, challenger loses bond *)
    won <- add (successfulChallenges (archiverOf s2 who)) 1 ;;
    let s3 := modifyArchiver who (set_successfulChallenges won) s2 in
    s4 <- send who CHALLENGE_BOND s3 ;;
    Ok (emit (ChallengeResolved challengeId archiverHasData 0) s4)
  else
    (* Challenger wins - archiver is slashed *)
    lost <- add (failedChallenges (archiverOf s2 who)) 1 ;;
    let s3 := modifyArchiver who (set_failedChallenges lost) s2 in
    prod <- mul (stake (archiverOf s3 who)) SLASH_PERCENT ;;
    let slashAmount := prod / 100 in
    newStake <- sub (stake (archiverOf s3 who)) slashAmount ;;
    let s4 := modifyArchiver who (set_stake newStake) s3 in
    total <- sub (totalStake s4) slashAmount ;;
    let s5 := set_totalStake total s4 in
    (* Give slash to challenger + return bond *)
    challengerReward <- add slashAmount CHALLENGE_BOND ;;
    s6 <- send (challenger (challengeOf s5 challengeId)) challengerReward s5 ;;
    (* Deactivate if stake too low *)
    s7 <- (if stake (archiverOf s6 who) <? MIN_STAKE
           then _deactivateArchiver who (block_timestamp m) s6
           else Ok s6) ;;
    Ok (emit (ChallengeResolved challengeId archiverHasData slashAmount) s7).

Definition resolveExpiredChallenge (challengeId : uint256) (m : Msg) (s : State)
  : result State :=
  if deadline (challengeOf s challengeId) =? 0 then Err ChallengeNotFound else
  if resolved (challengeOf s challengeId) then Err ChallengeAlreadyResolved else
  if block_timestamp m <? deadline (challengeOf s challengeId)
  then Err ChallengePeriodNotExpired else
  (* Archiver didn't respond in time - treat as failure *)
  let s1 := modifyChallenge challengeId (set_resolved true) s in
  let s2 := modifyChallenge challengeId (set_archiverWon false) s1 in
  let who := archiver (challengeOf s2 challengeId) in
  lost <- add (failedChallenges (archiverOf s2 who)) 1 ;;
  let s3 := modifyArchiver who (set_failedChallenges lost) s2 in
  prod <- mul (stake (archiverOf s3 who)) SLASH_PERCENT ;;
  let slashAmount := prod / 100 in
  newStake <- sub (stake (archiverOf s3 who)) slashAmount ;;
  let s4 := modifyArchiver who (set_stake newStake) s3 in
  total <- sub (totalStake s4) slashAmount ;;
  let s5 := set_totalStake total s4 in
  challengerReward <- add slashAmount CHALLENGE_BOND ;;
  s6 <- send (challenger (challengeOf s5 challengeId)) challengerReward s5 ;;
  s7 <- (if stake (archiverOf s6 who) <? MIN_STAKE
         then _deactivateArchiver who (block_timestamp m) s6
         else Ok s6) ;;
  Ok (emit (ChallengeResolved challengeId false slashAmount) s7).

(** *** Rewards *)

Definition fundRewardPool (m : Msg) (s0 : State) : result State :=
  let s := credit (msg_value m) s0 in
  s1 <- (if 0 <? totalStake s then
           prod <- mul (msg_value m) SCALE ;;
           acc <- add (accRewardPerStake s) (prod / totalStake s) ;;
           Ok (set_accRewardPerStake acc s)
         else Ok s) ;;
  pool <- add (rewardPool s1) (msg_value m) ;;
  Ok (emit (RewardPoolFunded (msg_sender m) (msg_value m)) (set_rewardPool pool s1)).

Definition claimRewards (m : Msg) (s : State) : result State :=
  _claimRewards (msg_sender m) (block_timestamp m) s.

Definition pendingRewards (archiverAddr : address) (s : State) : result uint256 :=
  if stake (archiverOf s archiverAddr) =? 0 then Ok 0 else
  prod <- mul (stake (archiverOf s archiverAddr)) (accRewardPerStake s) ;;
  sub (prod / SCALE) (rewardDebtOf s archiverAddr).

(** receive() external payable: direct transfers are protocol fees. *)
Definition receive (m : Msg) (s0 : State) : result State :=
  let s := credit (msg_value m) s0 in
  s1 <- (if 0 <? totalStake s then
           prod <- mul (msg_value m) SCALE ;;
           acc <- add (accRewardPerStake s) (prod / totalStake s) ;;
           Ok (set_accRewardPerStake acc s)
         else Ok s) ;;
  pool <- add (rewardPool s1) (msg_value m) ;;
  Ok (emit (RewardPoolFunded (msg_sender m) (msg_value m)) (set_rewardPool pool s1)).

(** *** View functions *)

Definition getActiveArchivers (s : State) : list N := activeArchivers s.

Definition getArchiversForBlob (h : bytes32) (s : State) : list N :=
  blobArchiversOf s h.

Definition getArchiverStats (archiverAddr : address) (s : State)
  : result (uint256 * uint256 * uint256) :=
  let a := archiverOf s archiverAddr in
  totalChallenges <- add (successfulChallenges a) (failedChallenges a) ;;
  successRate <- (if totalChallenges =? 0 then Ok 100
                  else prod <- mul (successfulChallenges a) 100 ;;
                       Ok (prod / totalChallenges)) ;;
  Ok (stake a, blobCount a, successRate).

(** *** Admin *)

Definition setFeeRecipient (r : address) (m : Msg) (s : State) : result State :=
  if negb (msg_sender m =? owner s)%N then Err OwnableUnauthorizedAccount else
  Ok (set_feeRecipient r s).

(** ** The contract as a transition system *)

Inductive Call :=
| call_register (ep : string)
| call_addStake
| call_withdrawStake (amount : uint256)
| call_deactivate
| call_commitToBlob (h : bytes32)
| call_batchCommitToBlobs (hs : list N)
| call_createChallenge (archiverAddr : address) (h : bytes32)
| call_resolveChallenge (challengeId : uint256) (archiverHasData : bool)
| call_resolveExpiredChallenge (challengeId : uint256)
| call_fundRewardPool
| call_claimRewards
| call_receive
| call_setFeeRecipient (r : address).

(** A function that is not payable reverts when value comes with the call. *)
Definition nonpayable (m : Msg) (r : result State) : result State :=
  if msg_value m =? 0 then r else Err NonPayable.

Definition call (c : Call) (m : Msg) (s : State) : result State :=
  match c with
  | call_register ep => register ep m s
  | call_addStake => addStake m s
  | call_withdrawStake amount => nonpayable m (withdrawStake amount m s)
  | call_deactivate => nonpayable m (deactivate m s)
  | call_commitToBlob h => nonpayable m (commitToBlob h m s)
  | call_batchCommitToBlobs hs => nonpayable m (batchCommitToBlobs hs m s)
  | call_createChallenge a h =>
      r <- createChallenge a h m s ;; Ok (snd r)
  | call_resolveChallenge id b => nonpayable m (resolveChallenge id b m s)
  | call_resolveExpiredChallenge id => nonpayable m (resolveExpiredChallenge id m s)
  | call_fundRewardPool => fundRewardPool m s
  | call_claimRewards => nonpayable m (claimRewards m s)
  | call_receive => receive m s
  | call_setFeeRecipient r => nonpayable m (setFeeRecipient r m s)
  end.

(** A reverted call rolls every change back. *)
Definition execute (c : Call) (m : Msg) (s : State) : State :=
  match call c m s with
  | Ok s' => s'
  | Err _ => s
  end.

(** The chain supplies values of type uint256 and a positive clock. *)
Definition wf_msg (m : Msg) : Prop :=
  0 <= msg_value m <= MAX_UINT256 /\ 0 < block_timestamp m <= MAX_UINT256.

Definition wf_call (c : Call) : Prop :=
  match c with
  | call_withdrawStake amount => 0 <= amount <= MAX_UINT256
  | call_resolveChallenge id _ => 0 <= id <= MAX_UINT256
  | call_resolveExpiredChallenge id => 0 <= id <= MAX_UINT256
  | _ => True
  end.

(** States the deployed contract can be in. *)
Inductive reachable : State -> Prop :=
| reachable_init deployer recipient : reachable (init deployer recipient)
| reachable_step c m s :
    reachable s -> wf_msg m -> wf_call c -> reachable (execute c m s).

(** What a sequence of calls makes of a state. *)
Fixpoint run (cs : list (Call * Msg)) (s : State) : State :=
  match cs with
  | [] => s
  | (c, m) :: rest => run rest (execute c m s)
  end.

Definition wf_trace (cs : list (Call * Msg)) : Prop :=
  Forall (fun cm => wf_call (fst cm) /\ wf_msg (snd cm)) cs.

(** * Properties *)

(** ** Inversion of successful runs *)

Lemma checked_Ok x y : checked x = Ok y -> y = x /\ 0 <= x <= MAX_UINT256.
Proof.
  unfold checked, in_range.
  destruct (0 <=? x) eqn:H1; destruct (x <=? MAX_UINT256) eqn:H2;
    simpl; intros H; try discriminate.
  injection H as <-. lia.
Qed.

Lemma checked_in x : 0 <= x <= MAX_UINT256 -> checked x = Ok x.
Proof.
  intros [H1 H2]. unfold checked, in_range.
  apply Z.leb_le in H1, H2. now rewrite H1, H2.
Qed.

Lemma checked_out x : ~ (0 <= x <= MAX_UINT256) -> checked x = Err Panic.
Proof.
  intros H. unfold checked, in_range.
  destruct (0 <=? x) eqn:H1; destruct (x <=? MAX_UINT256) eqn:H2; simpl; try reflexivity.
  apply Z.leb_le in H1, H2. lia.
Qed.

Lemma bind_Ok {A B} (r : result A) (k : A -> result B) b :
  bind r k = Ok b -> exists a, r = Ok a /\ k a = Ok b.
Proof. destruct r; simpl; intros H; [eauto | discriminate]. Qed.

(** One step of inversion on a hypothesis [H : ... = Ok _]. *)
Ltac inv_step H :=
  match type of H with
  | bind ?r _ = Ok _ =>
      let a := fresh "v" in
      let E := fresh "E" in
      apply bind_Ok in H; destruct H as (a & E & H)
  | (if ?b then _ else _) = Ok _ =>
      let E := fresh "C" in destruct b eqn:E; try discriminate H
  | Err _ = Ok _ => discriminate H
  end.

Ltac inv_arith :=
  repeat match goal with
  | H : add _ _ = Ok _ |- _ =>
      unfold add in H; apply checked_Ok in H; destruct H as [-> H]
  | H : sub _ _ = Ok _ |- _ =>
      unfold sub in H; apply checked_Ok in H; destruct H as [-> H]
  | H : mul _ _ = Ok _ |- _ =>
      unfold mul in H; apply checked_Ok in H; destruct H as [-> H]
  end.

Ltac bools :=
  repeat match goal with
  | H : (_ =? _) = true |- _ => apply Z.eqb_eq in H
  | H : (_ =? _) = false |- _ => apply Z.eqb_neq in H
  | H : (_ <? _) = true |- _ => apply Z.ltb_lt in H
  | H : (_ <? _) = false |- _ => apply Z.ltb_ge in H
  | H : (_ <=? _) = true |- _ => apply Z.leb_le in H
  | H : (_ <=? _) = false |- _ => apply Z.leb_gt in H
  | H : negb _ = true |- _ => apply negb_true_iff in H
  | H : negb _ = false |- _ => apply negb_false_iff in H
  | H : (_ && _) = true |- _ => apply andb_true_iff in H; destruct H
  end.

(** ** Reading an archiver record after a write *)

Lemma archiverOf_modify_eq a f s :
  archiverOf (modifyArchiver a f s) a = f (archiverOf s a).
Proof. unfold archiverOf, modifyArchiver. simpl. now rewrite lookup_insert_eq. Qed.

Lemma archiverOf_modify_ne a b f s :
  a <> b -> archiverOf (modifyArchiver a f s) b = archiverOf s b.
Proof.
  intros Hab. unfold archiverOf, modifyArchiver. simpl.
  now rewrite lookup_insert_ne.
Qed.

Lemma challengeOf_modify_eq id f s :
  challengeOf (modifyChallenge id f s) id = f (challengeOf s id).
Proof. unfold challengeOf, modifyChallenge. simpl. now rewrite lookup_insert_eq. Qed.

Lemma challengeOf_modify_ne id id' f s :
  id <> id' -> challengeOf (modifyChallenge id f s) id' = challengeOf s id'.
Proof.
  intros Hne. unfold challengeOf, modifyChallenge. simpl.
  now rewrite lookup_insert_ne.
Qed.

(** ** What the internal functions do *)

Lemma send_Ok to amount s s' :
  send to amount s = Ok s' ->
  amount <= balance s /\
  s' = set_sent ((to, amount) :: sent s) (set_balance (balance s - amount) s).
Proof.
  unfold send. intros H. inv_step H. bools. injection H as <-. auto.
Qed.

(** The state a paying settlement leaves. *)
Definition settled (a : address) (now : uint256) (s : State) : State :=
  let accumulated := stake (archiverOf s a) * accRewardPerStake s / SCALE in
  let pending := accumulated - rewardDebtOf s a in
  emit (RewardsClaimed a pending)
    (set_sent ((a, pending) :: sent s)
       (set_balance (balance s - pending)
          (modifyArchiver a (set_lastClaimAt now)
             (set_rewardDebt (<[a := accumulated]> (rewardDebt s)) s)))).

Lemma _claimRewards_Ok a now s s' :
  _claimRewards a now s = Ok s' ->
  (s' = s /\
   (stake (archiverOf s a) = 0 \/
    (0 <= stake (archiverOf s a) * accRewardPerStake s <= MAX_UINT256 /\
     stake (archiverOf s a) * accRewardPerStake s / SCALE = rewardDebtOf s a)))
  \/
  (s' = settled a now s /\
   stake (archiverOf s a) <> 0 /\
   0 <= stake (archiverOf s a) * accRewardPerStake s <= MAX_UINT256 /\
   0 < stake (archiverOf s a) * accRewardPerStake s / SCALE - rewardDebtOf s a
     <= balance s).
Proof.
  unfold _claimRewards. intros H.
  inv_step H; bools.
  { injection H as <-. auto. }
  repeat inv_step H; cbv zeta in H; repeat inv_step H; inv_arith; bools.
  - apply send_Ok in E1. destruct E1 as [Hb ->]. injection H as <-.
    right. simpl in Hb. unfold settled. repeat split; try assumption; lia.
  - injection H as <-. left. split; [reflexivity|]. right. split; [assumption|lia].
Qed.

Lemma pop_Ok s s' :
  pop s = Ok s' ->
  s' = set_activeArchivers (removelast (activeArchivers s)) s.
Proof.
  unfold pop. destruct (activeArchivers s); [discriminate|].
  intros H. now injection H as <-.
Qed.

(** Inversion of a whole run, naming nothing. *)
Ltac inv_results :=
  repeat match goal with
  | H : bind _ _ = Ok _ |- _ => apply bind_Ok in H; destruct H as (? & ? & H)
  | H : (if ?b then _ else _) = Ok _ |- _ => destruct b eqn:?; try discriminate H
  | H : Err _ = Ok _ |- _ => discriminate H
  | H : Ok _ = Ok _ |- _ => injection H as H; try subst
  | H : send _ _ _ = Ok _ |- _ => apply send_Ok in H; destruct H as [? H]; try subst
  | H : pop _ = Ok _ |- _ => apply pop_Ok in H; try subst
  | H : match ?x with Some _ => _ | None => _ end = Ok _ |- _ =>
      destruct x eqn:?; try discriminate H
  end.

Lemma _deactivateArchiver_Ok a now s s' :
  _deactivateArchiver a now s = Ok s' ->
  exists aa ai,
    s' = emit (ArchiverDeactivated a now)
           (set_archiverIndex ai
              (set_activeArchivers aa (modifyArchiver a (set_active false) s))).
Proof.
  unfold _deactivateArchiver. intros H. cbv zeta in H.
  inv_results; eexists _, _; reflexivity.
Qed.

(** Projections of updated records, and nothing else, are reduced. *)
Ltac sproj :=
  cbn [archivers activeArchivers archiverIndex challenges nextChallengeId
       totalStake rewardPool accRewardPerStake rewardDebt feeRecipient
       blobArchivers owner balance sent events
       set_archivers set_activeArchivers set_archiverIndex set_challenges
       set_nextChallengeId set_totalStake set_rewardPool set_accRewardPerStake
       set_rewardDebt set_feeRecipient set_blobArchivers set_balance set_sent
       set_events
       stake registeredAt lastClaimAt blobCount successfulChallenges
       failedChallenges active endpoint
       set_stake set_lastClaimAt set_blobCount set_successfulChallenges
       set_failedChallenges set_active
       challenger archiver blobHash deadline resolved archiverWon
       set_resolved set_archiverWon
       modifyArchiver modifyChallenge emit credit settled
       msg_sender msg_value block_timestamp fst snd] in *.

(** ** Sums over the archivers mapping *)

Definition sumOver (g : N -> Archiver -> Z) (m : gmap N Archiver) : Z :=
  map_fold (fun k x acc => g k x + acc) 0 m.

Section SumOver.
Variable g : N -> Archiver -> Z.

Lemma sumOver_empty : sumOver g ∅ = 0.
Proof. unfold sumOver. apply map_fold_empty. Qed.

Lemma sumOver_insert_fresh k x (m : gmap N Archiver) :
  m !! k = None -> sumOver g (<[k := x]> m) = g k x + sumOver g m.
Proof.
  intros Hk. unfold sumOver.
  rewrite map_fold_insert_L; [reflexivity | | assumption].
  intros. lia.
Qed.

Lemma sumOver_delete k x (m : gmap N Archiver) :
  m !! k = Some x -> sumOver g m = g k x + sumOver g (delete k m).
Proof.
  intros Hk.
  rewrite <- (insert_delete_id m k x Hk) at 1.
  apply sumOver_insert_fresh, lookup_delete_eq.
Qed.

(** The part of the sum a key accounts for. *)
Definition share (k : N) (m : gmap N Archiver) : Z :=
  match m !! k with
  | Some x => g k x
  | None => 0
  end.

Lemma sumOver_split k (m : gmap N Archiver) :
  sumOver g m = share k m + sumOver g (delete k m).
Proof.
  unfold share. destruct (m !! k) eqn:Hk.
  - now apply sumOver_delete.
  - now rewrite delete_id.
Qed.

Lemma sumOver_insert k x (m : gmap N Archiver) :
  sumOver g (<[k := x]> m) = g k x + sumOver g (delete k m).
Proof.
  rewrite <- insert_delete_eq.
  apply sumOver_insert_fresh, lookup_delete_eq.
Qed.
End SumOver.

Lemma sumOver_ext g g' (m : gmap N Archiver) :
  (forall k x, m !! k = Some x -> g k x = g' k x) ->
  sumOver g m = sumOver g' m.
Proof.
  induction m as [|k x m Hk IH] using map_ind; intros Hg.
  - now rewrite !sumOver_empty.
  - rewrite !sumOver_insert_fresh by assumption.
    rewrite (Hg k x) by apply lookup_insert_eq.
    rewrite IH; [reflexivity|].
    intros k' x' Hk'. apply Hg.
    rewrite lookup_insert_ne; [assumption|]. intros ->. congruence.
Qed.

Lemma sumOver_le g g' (m : gmap N Archiver) :
  (forall k x, m !! k = Some x -> g k x <= g' k x) ->
  sumOver g m <= sumOver g' m.
Proof.
  induction m as [|k x m Hk IH] using map_ind; intros Hg.
  - rewrite !sumOver_empty. lia.
  - rewrite !sumOver_insert_fresh by assumption.
    specialize (Hg k x (lookup_insert_eq _ _ _)) as Hkx.
    enough (sumOver g m <= sumOver g' m) by lia.
    apply IH. intros k' x' Hk'. apply Hg.
    rewrite lookup_insert_ne; [assumption|]. intros ->. congruence.
Qed.

Lemma sumOver_plus g h (m : gmap N Archiver) :
  sumOver (fun k x => g k x + h k x) m = sumOver g m + sumOver h m.
Proof.
  induction m as [|k x m Hk IH] using map_ind.
  - now rewrite !sumOver_empty.
  - rewrite !sumOver_insert_fresh by assumption. lia.
Qed.

Lemma sumOver_scale c g (m : gmap N Archiver) :
  sumOver (fun k x => c * g k x) m = c * sumOver g m.
Proof.
  induction m as [|k x m Hk IH] using map_ind.
  - rewrite !sumOver_empty. lia.
  - rewrite !sumOver_insert_fresh by assumption. lia.
Qed.

(** Changing the summand and the map at one key changes the sum by that
    key's share. *)
Lemma sumOver_local g g' k (m m' : gmap N Archiver) :
  (forall j, j <> k -> m' !! j = m !! j) ->
  (forall j x, j <> k -> g' j x = g j x) ->
  sumOver g' m' - share g' k m' = sumOver g m - share g k m.
Proof.
  intros Hm Hg.
  rewrite (sumOver_split g' k m'), (sumOver_split g k m).
  replace (delete k m') with (delete k m).
  - rewrite (sumOver_ext g' g (delete k m)); [lia|].
    intros j x Hj. apply Hg. intros ->. rewrite lookup_delete_eq in Hj. discriminate.
  - apply map_eq. intros j. destruct (decide (j = k)) as [->|Hne].
    + now rewrite !lookup_delete_eq.
    + rewrite !lookup_delete_ne by congruence. symmetry. now apply Hm.
Qed.

(** ** Conservation of stake *)

Definition stakeSum (s : State) : Z :=
  sumOver (fun _ x => stake x) (archivers s).

Lemma share_stake k (m : gmap N Archiver) :
  share (fun _ x => stake x) k m = stake (default emptyArchiver (m !! k)).
Proof. unfold share. now destruct (m !! k). Qed.

Lemma stakeSum_insert k x s s' :
  archivers s' = <[k := x]> (archivers s) ->
  stakeSum s' = stakeSum s - stake (archiverOf s k) + stake x.
Proof.
  intros Hs. unfold stakeSum, archiverOf.
  pose proof (sumOver_local (fun _ x => stake x) (fun _ x => stake x) k
                (archivers s) (archivers s')) as H.
  rewrite !share_stake in H. rewrite Hs in *.
  rewrite lookup_insert_eq in H. simpl in H.
  enough (sumOver (fun _ x => stake x) (<[k:=x]> (archivers s)) - stake x =
          sumOver (fun _ x => stake x) (archivers s) -
          stake (default emptyArchiver (archivers s !! k))) by lia.
  apply H; [|reflexivity].
  intros j Hj. now rewrite lookup_insert_ne.
Qed.

Ltac inv_calls := inv_results; inv_arith; bools.

Ltac simp_state :=
  repeat (unfold archiverOf, challengeOf, rewardDebtOf, archiverIndexOf in *; sproj;
          rewrite ?lookup_insert_eq, ?insert_insert_eq in *;
          cbn [default from_option id] in * ).

Ltac unfold_consts :=
  unfold MIN_STAKE, CHALLENGE_PERIOD, SLASH_PERCENT, CHALLENGE_BOND, SCALE,
    MAX_UINT256 in *.

(** [totalStake] is the sum of all stakes, no stake is negative, and a
    record that was never registered holds no stake. *)
Definition Inv_stake (s : State) : Prop :=
  totalStake s = stakeSum s /\
  (forall a, 0 <= stake (archiverOf s a)) /\
  (forall a, registeredAt (archiverOf s a) = 0 -> stake (archiverOf s a) = 0).

Lemma Inv_stake_init deployer recipient : Inv_stake (init deployer recipient).
Proof.
  unfold Inv_stake, stakeSum, archiverOf, init. simpl.
  rewrite sumOver_empty. repeat split; intros; rewrite lookup_empty; simpl; lia.
Qed.

Lemma Inv_stake_same s s' :
  Inv_stake s -> archivers s' = archivers s -> totalStake s' = totalStake s ->
  Inv_stake s'.
Proof.
  unfold Inv_stake, stakeSum, archiverOf. intros (H1 & H2 & H3) Ha Ht.
  rewrite Ha, Ht. auto.
Qed.

Lemma Inv_stake_insert s s' k x :
  Inv_stake s ->
  archivers s' = <[k := x]> (archivers s) ->
  totalStake s' = totalStake s - stake (archiverOf s k) + stake x ->
  0 <= stake x ->
  (registeredAt x = 0 -> stake x = 0) ->
  Inv_stake s'.
Proof.
  intros (H1 & H2 & H3) Ha Ht Hx Hr. split; [|split].
  - rewrite (stakeSum_insert k x s s' Ha). lia.
  - intros a. unfold archiverOf. rewrite Ha.
    destruct (decide (k = a)) as [->|Hne].
    + now rewrite lookup_insert_eq.
    + rewrite lookup_insert_ne by assumption. apply H2.
  - intros a. unfold archiverOf. rewrite Ha.
    destruct (decide (k = a)) as [->|Hne].
    + now rewrite lookup_insert_eq.
    + rewrite lookup_insert_ne by assumption. apply H3.
Qed.

(** The invariant carries over to a state built from [s] by writes to the
    record at key [k]. *)
Ltac stake_at s k Hs :=
  eapply (Inv_stake_insert s _ k);
  [ exact Hs | simp_state; reflexivity | .. ];
  destruct Hs as (? & Hpos & Hreg);
  pose proof (Hpos k); pose proof (Hreg k);
  simp_state; unfold_consts; try lia;
  try (intros; Z.to_euclidean_division_equations; lia).

Ltac stake_same Hs :=
  apply (Inv_stake_same _ _ Hs); reflexivity.

Lemma _claimRewards_Inv_stake a now s s' :
  _claimRewards a now s = Ok s' -> Inv_stake s -> Inv_stake s'.
Proof.
  intros H Hs. apply _claimRewards_Ok in H.
  destruct H as [[-> _] | (-> & _)]; [assumption|].
  unfold settled. stake_at s a Hs.
Qed.

Lemma _deactivateArchiver_Inv_stake a now s s' :
  _deactivateArchiver a now s = Ok s' -> Inv_stake s -> Inv_stake s'.
Proof.
  intros H Hs. apply _deactivateArchiver_Ok in H. destruct H as (aa & ai & ->).
  stake_at s a Hs.
Qed.

Lemma register_Inv_stake ep m s s' :
  register ep m s = Ok s' -> wf_msg m -> Inv_stake s -> Inv_stake s'.
Proof.
  unfold register. intros H Hm Hs. cbv zeta in H. destruct Hm as [? ?].
  inv_calls. stake_at s (msg_sender m) Hs.
Qed.

(** What a settlement leaves alone. *)
Definition claim_frame (s s' : State) : Prop :=
  totalStake s' = totalStake s /\
  accRewardPerStake s' = accRewardPerStake s /\
  challenges s' = challenges s /\
  nextChallengeId s' = nextChallengeId s /\
  owner s' = owner s /\
  forall b,
    stake (archiverOf s' b) = stake (archiverOf s b) /\
    registeredAt (archiverOf s' b) = registeredAt (archiverOf s b) /\
    active (archiverOf s' b) = active (archiverOf s b).

Lemma _claimRewards_frame a now s s' :
  _claimRewards a now s = Ok s' -> claim_frame s s'.
Proof.
  intros H. apply _claimRewards_Ok in H.
  destruct H as [[-> _] | (-> & _)]; unfold claim_frame.
  - repeat split; reflexivity.
  - repeat split; try reflexivity;
      unfold archiverOf; sproj;
      (destruct (decide (a = b)) as [->|Hne];
       [rewrite lookup_insert_eq | rewrite lookup_insert_ne by assumption];
       reflexivity).
Qed.

Lemma addStake_Inv_stake m s s' :
  addStake m s = Ok s' -> wf_msg m -> Inv_stake s -> Inv_stake s'.
Proof.
  unfold addStake. intros H Hm Hs. cbv zeta in H. inv_calls.
  match goal with
  | Hc : _claimRewards _ _ _ = Ok ?x |- _ =>
      assert (Hx : Inv_stake x)
        by (apply (_claimRewards_Inv_stake _ _ _ _ Hc); stake_same Hs);
      apply _claimRewards_frame in Hc;
      destruct Hc as (_ & _ & _ & _ & _ & Hf);
      destruct (Hf (msg_sender m)) as (_ & Hr & _); clear Hf;
      stake_at x (msg_sender m) Hx
  end.
Qed.

Lemma withdrawStake_Inv_stake amount m s s' :
  withdrawStake amount m s = Ok s' -> Inv_stake s -> Inv_stake s'.
Proof.
  unfold withdrawStake. intros H Hs. cbv zeta in H. inv_calls.
  - match goal with
    | Hc : _claimRewards _ _ _ = Ok ?x,
      Hd : _deactivateArchiver _ _ ?y = Ok ?z |- _ =>
        assert (Hx : Inv_stake x) by apply (_claimRewards_Inv_stake _ _ _ _ Hc Hs);
        apply _claimRewards_frame in Hc;
        destruct Hc as (_ & _ & _ & _ & _ & Hf);
        destruct (Hf (msg_sender m)) as (Hst & Hr & _); clear Hf;
        assert (Hy : Inv_stake y) by (clear Hd; stake_at x (msg_sender m) Hx);
        assert (Hz : Inv_stake z) by apply (_deactivateArchiver_Inv_stake _ _ _ _ Hd Hy);
        stake_same Hz
    end.
  - match goal with
    | Hc : _claimRewards _ _ _ = Ok ?x |- _ =>
        assert (Hx : Inv_stake x) by apply (_claimRewards_Inv_stake _ _ _ _ Hc Hs);
        apply _claimRewards_frame in Hc;
        destruct Hc as (_ & _ & _ & _ & _ & Hf);
        destruct (Hf (msg_sender m)) as (Hst & Hr & _); clear Hf;
        stake_at x (msg_sender m) Hx
    end.
Qed.

Lemma deactivate_Inv_stake m s s' :
  deactivate m s = Ok s' -> Inv_stake s -> Inv_stake s'.
Proof.
  unfold deactivate. intros H Hs. inv_calls.
  eapply _deactivateArchiver_Inv_stake; eassumption.
Qed.

Lemma commitOne_Inv_stake h m s s' :
  commitOne h m s = Ok s' -> Inv_stake s -> Inv_stake s'.
Proof.
  unfold commitOne. intros H Hs. cbv zeta in H. inv_calls.
  stake_at s (msg_sender m) Hs.
Qed.

Lemma commitAll_Inv_stake hs m s s' :
  commitAll hs m s = Ok s' -> Inv_stake s -> Inv_stake s'.
Proof.
  revert s. induction hs as [|h hs IH]; simpl; intros s H Hs.
  - now injection H as <-.
  - apply bind_Ok in H. destruct H as (s1 & H1 & H).
    eapply IH; [exact H|]. eapply commitOne_Inv_stake; eassumption.
Qed.

Lemma createChallenge_Inv_stake a h m s r :
  createChallenge a h m s = Ok r -> Inv_stake s -> Inv_stake (snd r).
Proof.
  unfold createChallenge. intros H Hs. cbv zeta in H. inv_calls.
  stake_same Hs.
Qed.

(** The slashing path shared by both resolutions, from the state [x] in
    which the challenge is already marked. *)
Ltac stake_slash x who Hx :=
  match goal with
  | Hd : _deactivateArchiver _ _ ?y = Ok ?z |- _ =>
      assert (Hy : Inv_stake y) by (clear Hd; stake_at x who Hx);
      assert (Hz : Inv_stake z) by apply (_deactivateArchiver_Inv_stake _ _ _ _ Hd Hy);
      stake_same Hz
  | _ => stake_at x who Hx
  end.

Lemma resolveChallenge_Inv_stake id b m s s' :
  resolveChallenge id b m s = Ok s' -> Inv_stake s -> Inv_stake s'.
Proof.
  unfold resolveChallenge. intros H Hs. cbv zeta in H. inv_calls;
    stake_slash s (archiver (challengeOf s id)) Hs.
Qed.

Lemma resolveExpiredChallenge_Inv_stake id m s s' :
  resolveExpiredChallenge id m s = Ok s' -> Inv_stake s -> Inv_stake s'.
Proof.
  unfold resolveExpiredChallenge. intros H Hs. cbv zeta in H. inv_calls;
    stake_slash s (archiver (challengeOf s id)) Hs.
Qed.

Lemma fundRewardPool_Inv_stake m s s' :
  fundRewardPool m s = Ok s' -> Inv_stake s -> Inv_stake s'.
Proof.
  unfold fundRewardPool. intros H Hs. cbv zeta in H. inv_calls; stake_same Hs.
Qed.

Lemma receive_Inv_stake m s s' :
  receive m s = Ok s' -> Inv_stake s -> Inv_stake s'.
Proof.
  unfold receive. intros H Hs. cbv zeta in H. inv_calls; stake_same Hs.
Qed.

Lemma nonpayable_Ok m r s' : nonpayable m r = Ok s' -> r = Ok s'.
Proof. unfold nonpayable. destruct (msg_value m =? 0); [auto | discriminate]. Qed.

Lemma call_Inv_stake c m s s' :
  call c m s = Ok s' -> wf_msg m -> Inv_stake s -> Inv_stake s'.
Proof.
  destruct c; simpl; intros H Hm Hs;
    try (apply nonpayable_Ok in H).
  - eapply register_Inv_stake; eassumption.
  - eapply addStake_Inv_stake; eassumption.
  - eapply withdrawStake_Inv_stake; eassumption.
  - eapply deactivate_Inv_stake; eassumption.
  - unfold commitToBlob in H. inv_results.
    eapply commitOne_Inv_stake; eassumption.
  - unfold batchCommitToBlobs in H. inv_results.
    eapply commitAll_Inv_stake; eassumption.
  - apply bind_Ok in H. destruct H as (r & Hr & H). injection H as <-.
    eapply createChallenge_Inv_stake; eassumption.
  - eapply resolveChallenge_Inv_stake; eassumption.
  - eapply resolveExpiredChallenge_Inv_stake; eassumption.
  - eapply fundRewardPool_Inv_stake; eassumption.
  - eapply _claimRewards_Inv_stake; eassumption.
  - eapply receive_Inv_stake; eassumption.
  - unfold setFeeRecipient in H. inv_results. stake_same Hs.
Qed.

Lemma execute_Inv_stake c m s :
  wf_msg m -> Inv_stake s -> Inv_stake (execute c m s).
Proof.
  intros Hm Hs. unfold execute. destruct (call c m s) eqn:H; [|assumption].
  eapply call_Inv_stake; eassumption.
Qed.

Lemma reachable_Inv_stake s : reachable s -> Inv_stake s.
Proof.
  induction 1 as [|c m s _ IH Hm _].
  - apply Inv_stake_init.
  - now apply execute_Inv_stake.
Qed.

Lemma run_Inv_stake cs s : wf_trace cs -> Inv_stake s -> Inv_stake (run cs s).
Proof.
  revert s. induction cs as [|[c m] cs IH]; simpl; intros s Hwf Hs.
  - assumption.
  - inversion Hwf as [|? ? [_ Hm] Hrest]; subst.
    apply IH; [assumption|]. now apply execute_Inv_stake.
Qed.

Lemma run_reachable cs s : wf_trace cs -> reachable s -> reachable (run cs s).
Proof.
  revert s. induction cs as [|[c m] cs IH]; simpl; intros s Hwf Hs.
  - assumption.
  - inversion Hwf as [|? ? [Hc Hm] Hrest]; subst.
    apply IH; [assumption|]. now apply reachable_step.
Qed.

(** A trace used to exercise the theorems: an archiver registers, the pool
    is funded, a challenge is opened against the archiver and lost. *)
Definition sample_trace : list (Call * Msg) :=
  [ (call_register "a", mkMsg 1%N 100000000000000000 1);
    (call_fundRewardPool, mkMsg 9%N 100000000000000000 2);
    (call_createChallenge 1%N 7%N, mkMsg 8%N 10000000000000000 3);
    (call_resolveChallenge 0 false, mkMsg 100%N 0 4) ].

Lemma sample_trace_wf : wf_trace sample_trace.
Proof.
  unfold wf_trace, sample_trace.
  repeat constructor; unfold MAX_UINT256; simpl; lia.
Defined.

(** Conservation along calls that each run to completion before the
    next one starts. *)
Lemma run_totalStake cs deployer recipient :
  wf_trace cs ->
  totalStake (run cs (init deployer recipient)) =
  stakeSum (run cs (init deployer recipient)).
Proof.
  intros Hwf.
  apply (run_Inv_stake cs (init deployer recipient) Hwf (Inv_stake_init _ _)).
Qed.

(** ** The accumulator never decreases *)

(** Replaces the runs of the internal functions by what they leave. *)
Ltac frames :=
  repeat match goal with
  | Hc : _claimRewards _ _ _ = Ok _ |- _ =>
      apply _claimRewards_frame in Hc;
      destruct Hc as (? & ? & ? & ? & ? & ?)
  | Hd : _deactivateArchiver _ _ _ = Ok _ |- _ =>
      apply _deactivateArchiver_Ok in Hd; destruct Hd as (? & ? & ->)
  end.

Lemma commitAll_acc hs m s s' :
  commitAll hs m s = Ok s' -> accRewardPerStake s' = accRewardPerStake s.
Proof.
  revert s. induction hs as [|h hs IH]; simpl; intros s H.
  - now injection H as <-.
  - apply bind_Ok in H. destruct H as (s1 & H1 & H).
    rewrite (IH _ H). unfold commitOne in H1. cbv zeta in H1. inv_calls. reflexivity.
Qed.

Lemma fund_acc_le v acc total :
  0 <= v * SCALE -> 0 < total -> acc <= acc + v * SCALE / total.
Proof.
  intros Hv Ht. pose proof (Z.div_pos (v * SCALE) total Hv Ht). lia.
Qed.

Lemma call_acc_mono c m s s' :
  call c m s = Ok s' -> accRewardPerStake s <= accRewardPerStake s'.
Proof.
  destruct c; simpl; intros H; try (apply nonpayable_Ok in H).
  - unfold register in H. cbv zeta in H. inv_calls. sproj. lia.
  - unfold addStake in H. cbv zeta in H. inv_calls. frames. sproj. lia.
  - unfold withdrawStake in H. cbv zeta in H. inv_calls; frames; sproj; lia.
  - unfold deactivate in H. inv_calls. frames. sproj. lia.
  - unfold commitToBlob, commitOne in H. cbv zeta in H. inv_calls. sproj. lia.
  - unfold batchCommitToBlobs in H. inv_calls.
    match goal with
    | Hc : commitAll _ _ _ = Ok _ |- _ => rewrite (commitAll_acc _ _ _ _ Hc)
    end. lia.
  - apply bind_Ok in H. destruct H as (r & Hr & H). injection H as <-.
    unfold createChallenge in Hr. cbv zeta in Hr. inv_calls. sproj. lia.
  - unfold resolveChallenge in H. cbv zeta in H. inv_calls; frames; sproj; lia.
  - unfold resolveExpiredChallenge in H. cbv zeta in H.
    inv_calls; frames; sproj; lia.
  - unfold fundRewardPool in H. cbv zeta in H. inv_calls; sproj; [|lia].
    apply fund_acc_le; sproj; lia.
  - unfold claimRewards in H. frames. lia.
  - unfold receive in H. cbv zeta in H. inv_calls; sproj; [|lia].
    apply fund_acc_le; sproj; lia.
  - unfold setFeeRecipient in H. inv_calls. sproj. lia.
Qed.

(** C8.  Monotonic accumulator: whatever the call and whatever the state,
    [accRewardPerStake] after the call is at least its value before. *)
Theorem accRewardPerStake_monotone c m s :
  accRewardPerStake s <= accRewardPerStake (execute c m s).
Proof.
  unfold execute. destruct (call c m s) eqn:H; [|lia].
  now apply call_acc_mono in H.
Qed.

(** ** Withdrawing stake *)



(** An archiver with 0.3 ether staked, and nothing else. *)
Definition one_archiver : State :=
  run [ (call_register "a", mkMsg 1%N 300000000000000000 1) ] (init 100%N 100%N).


(** ** Opening a challenge *)

(** The state a successful [createChallenge] leaves. *)
Definition opened (archiverAddr : address) (h : bytes32) (m : Msg) (s : State) : State :=
  emit (ChallengeCreated (nextChallengeId s) (msg_sender m) archiverAddr h)
    (set_challenges
       (<[nextChallengeId s :=
            mkChallenge (msg_sender m) archiverAddr h
              (block_timestamp m + CHALLENGE_PERIOD) false false]> (challenges s))
       (set_nextChallengeId (nextChallengeId s + 1) (credit (msg_value m) s))).

Lemma createChallenge_eq a h m s :
  0 <= nextChallengeId s < MAX_UINT256 ->
  0 <= block_timestamp m ->
  block_timestamp m + CHALLENGE_PERIOD <= MAX_UINT256 ->
  createChallenge a h m s =
  if negb (msg_value m =? CHALLENGE_BOND) then Err InvalidBond
  else if negb (active (archiverOf s a)) then Err ArchiverNotActive
  else Ok (nextChallengeId s, opened a h m s).
Proof.
  intros Hn Ht Hd. unfold createChallenge. cbv zeta.
  destruct (negb (msg_value m =? CHALLENGE_BOND)); [reflexivity|].
  change (archiverOf (credit (msg_value m) s) a) with (archiverOf s a).
  destruct (negb (active (archiverOf s a))); [reflexivity|].
  unfold add. sproj.
  rewrite (checked_in (nextChallengeId s + 1)) by lia.
  cbn [bind].
  rewrite (checked_in (block_timestamp m + CHALLENGE_PERIOD))
    by (unfold CHALLENGE_PERIOD in *; lia).
  reflexivity.
Qed.

(** C10.  As long as the challenge counter and the clock have room,
    [createChallenge] fails exactly when the bond is not [CHALLENGE_BOND]
    ([InvalidBond], tested first) or the archiver is not active
    ([ArchiverNotActive]); with the exact bond and an active archiver it
    succeeds for every blob hash, and [blobArchivers] plays no part. *)
Theorem createChallenge_fails_iff a h m s :
  0 <= nextChallengeId s < MAX_UINT256 ->
  0 <= block_timestamp m ->
  block_timestamp m + CHALLENGE_PERIOD <= MAX_UINT256 ->
  (createChallenge a h m s = Err InvalidBond <-> msg_value m <> CHALLENGE_BOND) /\
  (createChallenge a h m s = Err ArchiverNotActive <->
   msg_value m = CHALLENGE_BOND /\ active (archiverOf s a) = false) /\
  (is_ok (createChallenge a h m s) = false <->
   msg_value m <> CHALLENGE_BOND \/ active (archiverOf s a) = false) /\
  (msg_value m = CHALLENGE_BOND -> active (archiverOf s a) = true ->
   createChallenge a h m s = Ok (nextChallengeId s, opened a h m s)) /\
  (forall ba,
     is_ok (createChallenge a h m (set_blobArchivers ba s)) =
     is_ok (createChallenge a h m s)).
Proof.
  intros Hn Ht Hd.
  assert (Hba : forall ba,
             is_ok (createChallenge a h m (set_blobArchivers ba s)) =
             is_ok (createChallenge a h m s)).
  { intros ba.
    rewrite (createChallenge_eq a h m s Hn Ht Hd).
    rewrite (createChallenge_eq a h m (set_blobArchivers ba s) Hn Ht Hd).
    change (archiverOf (set_blobArchivers ba s) a) with (archiverOf s a).
    destruct (negb (msg_value m =? CHALLENGE_BOND)); [reflexivity|].
    destruct (negb (active (archiverOf s a))); reflexivity. }
  split; [|split; [|split; [|split; [|exact Hba]]]]; clear Hba.
  all: rewrite (createChallenge_eq a h m s Hn Ht Hd).
  all: destruct (msg_value m =? CHALLENGE_BOND) eqn:Hb;
    destruct (active (archiverOf s a)) eqn:Ha; simpl; bools.
  all: try split; try intros; try discriminate; try congruence; auto.
  all: try (destruct H; congruence).
  all: try (destruct H; discriminate).
Qed.

Lemma createChallenge_fails_iff_witness :
  createChallenge 1%N 7%N (mkMsg 8%N 10000000000000000 3) one_archiver =
  Ok (0, opened 1%N 7%N (mkMsg 8%N 10000000000000000 3) one_archiver) /\
  blobArchiversOf one_archiver 7%N = [].
Proof.
  split; [|reflexivity].
  apply (createChallenge_fails_iff 1%N 7%N (mkMsg 8%N 10000000000000000 3)
           one_archiver).
  - vm_compute. split; [discriminate | reflexivity].
  - vm_compute. discriminate.
  - vm_compute. discriminate.
  - reflexivity.
  - reflexivity.
Defined.

(** ** Expiry resolves as a lost challenge *)

(** What losing a challenge does, in terms of the state before. *)
Definition slashed (id : uint256) (s s' : State) : Prop :=
  let c := challengeOf s id in
  let who := archiver c in
  let slashAmount := stake (archiverOf s who) * SLASH_PERCENT / 100 in
  failedChallenges (archiverOf s' who) = failedChallenges (archiverOf s who) + 1 /\
  stake (archiverOf s' who) = stake (archiverOf s who) - slashAmount /\
  totalStake s' = totalStake s - slashAmount /\
  sent s' = (challenger c, slashAmount + CHALLENGE_BOND) :: sent s /\
  balance s' = balance s - (slashAmount + CHALLENGE_BOND) /\
  active (archiverOf s' who) =
    (if stake (archiverOf s who) - slashAmount <? MIN_STAKE
     then false else active (archiverOf s who)) /\
  challengeOf s' id =
    mkChallenge (challenger c) (archiver c) (blobHash c) (deadline c) true false.

(** The challenge record once it is marked resolved with outcome [b]. *)
Lemma marked_frame id b s :
  let s2 := modifyChallenge id (set_archiverWon b)
              (modifyChallenge id (set_resolved true) s) in
  archivers s2 = archivers s /\ totalStake s2 = totalStake s /\
  sent s2 = sent s /\ balance s2 = balance s /\
  challenges s2 !! id =
    Some (mkChallenge (challenger (challengeOf s id)) (archiver (challengeOf s id))
            (blobHash (challengeOf s id)) (deadline (challengeOf s id)) true b).
Proof.
  cbv zeta. repeat split.
  unfold modifyChallenge at 1. sproj. rewrite lookup_insert_eq.
  rewrite challengeOf_modify_eq. reflexivity.
Qed.

Lemma resolveExpiredChallenge_slashed id m s s' :
  resolveExpiredChallenge id m s = Ok s' -> slashed id s s'.
Proof.
  unfold resolveExpiredChallenge. intros H. cbv zeta in H.
  do 3 inv_step H.
  pose proof (marked_frame id false s) as Hf. cbv zeta in Hf.
  set (s2 := modifyChallenge id (set_archiverWon false)
               (modifyChallenge id (set_resolved true) s)) in *.
  destruct Hf as (Ha & Ht & Hs & Hb & Hc).
  clearbody s2.
  unfold slashed. cbv zeta.
  set (c := challengeOf s id) in *.
  assert (Hao : forall k, archiverOf s2 k = archiverOf s k)
    by (intros k; unfold archiverOf; now rewrite Ha).
  rewrite <- !Hao, <- Ht, <- Hs, <- Hb.
  clearbody c. clear Hao Ha Ht Hs Hb.
  inv_calls; frames; simp_state; rewrite Hc in *;
    cbn [from_option Datatypes.id] in *; simp_state.
  - repeat split; try reflexivity.
    match goal with
    | Hlt : _ < MIN_STAKE |- _ => apply Z.ltb_lt in Hlt; now rewrite Hlt
    end.
  - repeat split; try reflexivity.
    match goal with
    | Hge : MIN_STAKE <= _ |- _ => apply Z.ltb_ge in Hge; now rewrite Hge
    end.
Qed.

(** C4.  On an unresolved challenge whose deadline has been reached,
    [resolveExpiredChallenge] returns exactly what [resolveChallenge] with
    [archiverHasData = false] returns when the owner calls it at the same
    time: the same error, or the same state, in which the archiver lost one
    more challenge, [stake * SLASH_PERCENT / 100] left its stake and
    [totalStake], the challenger was sent that amount plus the bond, the
    archiver is inactive if its stake fell below [MIN_STAKE], and the
    challenge is resolved against the archiver. *)
Theorem resolveExpired_as_resolve_false id m s :
  deadline (challengeOf s id) <> 0 ->
  resolved (challengeOf s id) = false ->
  deadline (challengeOf s id) <= block_timestamp m ->
  resolveExpiredChallenge id m s =
    resolveChallenge id false (mkMsg (owner s) 0 (block_timestamp m)) s /\
  (forall s', resolveExpiredChallenge id m s = Ok s' -> slashed id s s').
Proof.
  intros Hd Hr Ht. split.
  - unfold resolveExpiredChallenge, resolveChallenge. sproj.
    rewrite N.eqb_refl. cbn [negb].
    apply Z.eqb_neq in Hd. rewrite Hd, Hr.
    apply Z.ltb_ge in Ht. rewrite Ht.
    reflexivity.
  - intros s'. apply resolveExpiredChallenge_slashed.
Qed.

(** An open challenge against the only archiver. *)
Definition open_challenge : State :=
  run [ (call_createChallenge 1%N 7%N, mkMsg 8%N 10000000000000000 3) ] one_archiver.

Lemma resolveExpired_as_resolve_false_witness :
  resolveExpiredChallenge 0 (mkMsg 5%N 0 90000) open_challenge =
  resolveChallenge 0 false (mkMsg 100%N 0 90000) open_challenge.
Proof.
  apply (resolveExpired_as_resolve_false 0 (mkMsg 5%N 0 90000) open_challenge).
  - vm_compute. discriminate.
  - vm_compute. reflexivity.
  - vm_compute. discriminate.
Defined.

(** ** Settlement is idempotent *)

Lemma settled_archiverOf a now s :
  archiverOf (settled a now s) a = set_lastClaimAt now (archiverOf s a).
Proof. unfold archiverOf, settled. sproj. now rewrite lookup_insert_eq. Qed.

Lemma settled_rewardDebtOf a now s :
  rewardDebtOf (settled a now s) a =
  stake (archiverOf s a) * accRewardPerStake s / SCALE.
Proof. unfold rewardDebtOf, settled. sproj. now rewrite lookup_insert_eq. Qed.

Lemma _claimRewards_pending a now s s' :
  _claimRewards a now s = Ok s' ->
  exists p,
    pendingRewards a s = Ok p /\
    ((p = 0 /\ s' = s) \/
     (0 < p /\ p <= balance s /\ s' = settled a now s /\
      stake (archiverOf s a) <> 0 /\
      0 <= stake (archiverOf s a) * accRewardPerStake s <= MAX_UINT256)).
Proof.
  unfold _claimRewards, pendingRewards. intros H.
  destruct (stake (archiverOf s a) =? 0) eqn:Hz.
  { injection H as <-. exists 0. auto. }
  apply bind_Ok in H. destruct H as (prod & Hprod & H). rewrite Hprod. cbn [bind].
  apply bind_Ok in H. destruct H as (p & Hp & H). rewrite Hp. exists p.
  split; [reflexivity|].
  cbv zeta in H. inv_results; inv_arith; bools.
  - right. unfold settled. sproj. repeat split; try assumption; try lia.
  - left. split; [lia | reflexivity].
Qed.

Lemma _claimRewards_settled a now now' s :
  stake (archiverOf s a) <> 0 ->
  0 <= stake (archiverOf s a) * accRewardPerStake s <= MAX_UINT256 ->
  _claimRewards a now' (settled a now s) = Ok (settled a now s) /\
  pendingRewards a (settled a now s) = Ok 0.
Proof.
  intros Hst Hr. unfold _claimRewards, pendingRewards.
  rewrite settled_archiverOf, settled_rewardDebtOf.
  change (accRewardPerStake (settled a now s)) with (accRewardPerStake s).
  change (stake (set_lastClaimAt now (archiverOf s a))) with (stake (archiverOf s a)).
  apply Z.eqb_neq in Hst. rewrite Hst.
  unfold mul, sub. rewrite checked_in by assumption. cbn [bind].
  rewrite Z.sub_diag. rewrite checked_in by (unfold MAX_UINT256; lia).
  cbn [bind]. split; reflexivity.
Qed.

Lemma pending_zero_noop a now s :
  pendingRewards a s = Ok 0 -> _claimRewards a now s = Ok s.
Proof.
  unfold pendingRewards, _claimRewards. intros H.
  destruct (stake (archiverOf s a) =? 0); [reflexivity|].
  destruct (mul (stake (archiverOf s a)) (accRewardPerStake s)) as [prod|];
    [|discriminate].
  cbn [bind] in *. rewrite H. reflexivity.
Qed.

(** C7.  When [claimRewards] succeeds it pays the caller exactly what
    [pendingRewards] reported, and an immediately following [claimRewards]
    by the same caller succeeds, pays nothing and leaves the state as it
    is. *)
Theorem claimRewards_twice m m' s s1 :
  msg_sender m' = msg_sender m ->
  claimRewards m s = Ok s1 ->
  (exists p,
     pendingRewards (msg_sender m) s = Ok p /\
     balance s1 = balance s - p /\
     sent s1 = (if 0 <? p then (msg_sender m, p) :: sent s else sent s)) /\
  claimRewards m' s1 = Ok s1 /\
  pendingRewards (msg_sender m) s1 = Ok 0.
Proof.
  intros Hm H. unfold claimRewards in *. rewrite Hm.
  pose proof H as Hp. apply _claimRewards_pending in Hp.
  destruct Hp as (p & Hpend & [[-> ->] | (Hpos & Hbal & -> & Hst & Hr)]).
  - split; [exists 0; repeat split; [assumption | lia] |].
    split; [|assumption]. now apply pending_zero_noop.
  - split.
    + exists p. split; [assumption|].
      unfold pendingRewards in Hpend.
      apply Z.eqb_neq in Hst. rewrite Hst in Hpend.
      unfold mul, sub in Hpend. rewrite checked_in in Hpend by assumption.
      cbn [bind] in Hpend. apply checked_Ok in Hpend. destruct Hpend as [-> _].
      apply Z.ltb_lt in Hpos. rewrite Hpos. split; reflexivity.
    + apply _claimRewards_settled; assumption.
Qed.

(** An archiver with 0.1 ether staked and 0.1 ether of rewards pending. *)
Definition funded_archiver : State :=
  run [ (call_register "a", mkMsg 1%N 100000000000000000 1);
        (call_fundRewardPool, mkMsg 9%N 100000000000000000 2) ]
    (init 100%N 100%N).

Lemma claimRewards_twice_witness :
  claimRewards (mkMsg 1%N 0 6)
    (execute call_claimRewards (mkMsg 1%N 0 5) funded_archiver) =
  Ok (execute call_claimRewards (mkMsg 1%N 0 5) funded_archiver).
Proof.
  apply (claimRewards_twice (mkMsg 1%N 0 5) (mkMsg 1%N 0 6) funded_archiver
           (execute call_claimRewards (mkMsg 1%N 0 5) funded_archiver)).
  - reflexivity.
  - vm_compute. reflexivity.
Defined.

(** ** A slashed archiver stays inactive *)

(** The archiver loses a challenge, falls below [MIN_STAKE] and is
    deactivated; it then adds 0.1 ether. *)
Definition slashed_archiver : State :=
  run [ (call_register "a", mkMsg 1%N 100000000000000000 1);
        (call_createChallenge 1%N 7%N, mkMsg 8%N 10000000000000000 2);
        (call_resolveChallenge 0 false, mkMsg 100%N 0 3) ]
    (init 100%N 100%N).

Definition topped_up_archiver : State :=
  run [ (call_addStake, mkMsg 1%N 100000000000000000 4) ] slashed_archiver.

(** C9, as stated, fails: after the slash the archiver is inactive with
    0.09 ether; [addStake] succeeds and brings the stake to 0.19 ether, at
    least [MIN_STAKE]; a commit by the archiver still reverts with
    [ArchiverNotActive]. *)
Lemma topped_up_archiver_cannot_commit :
  active (archiverOf slashed_archiver 1%N) = false /\
  stake (archiverOf slashed_archiver 1%N) = 90000000000000000 /\
  is_ok (addStake (mkMsg 1%N 100000000000000000 4) slashed_archiver) = true /\
  stake (archiverOf topped_up_archiver 1%N) = 190000000000000000 /\
  MIN_STAKE <= stake (archiverOf topped_up_archiver 1%N) /\
  commitToBlob 7%N (mkMsg 1%N 0 5) topped_up_archiver = Err ArchiverNotActive.
Proof.
  repeat split; try (vm_compute; reflexivity).
  vm_compute. discriminate.
Qed.

(** C9, amended.  [addStake] never reactivates: an archiver that is
    inactive before a successful [addStake] is inactive after it, whatever
    its new stake, and a commit by it reverts with [ArchiverNotActive]. *)
Theorem addStake_keeps_inactive h m m' s s' :
  active (archiverOf s (msg_sender m)) = false ->
  addStake m s = Ok s' ->
  msg_sender m' = msg_sender m ->
  active (archiverOf s' (msg_sender m)) = false /\
  commitToBlob h m' s' = Err ArchiverNotActive.
Proof.
  intros Ha H Hm.
  assert (Hs' : active (archiverOf s' (msg_sender m)) = false).
  { unfold addStake in H. cbv zeta in H. inv_calls.
    match goal with
    | Hc : _claimRewards _ _ _ = Ok _ |- _ =>
        apply _claimRewards_frame in Hc;
        destruct Hc as (_ & _ & _ & _ & _ & Hf);
        destruct (Hf (msg_sender m)) as (_ & _ & Hact); clear Hf
    end.
    simp_state. congruence. }
  split; [assumption|].
  unfold commitToBlob. rewrite Hm, Hs'. reflexivity.
Qed.

Lemma addStake_keeps_inactive_witness :
  commitToBlob 7%N (mkMsg 1%N 0 5)
    (execute call_addStake (mkMsg 1%N 100000000000000000 4) slashed_archiver)
  = Err ArchiverNotActive.
Proof.
  apply (addStake_keeps_inactive 7%N (mkMsg 1%N 100000000000000000 4)
           (mkMsg 1%N 0 5) slashed_archiver
           (execute call_addStake (mkMsg 1%N 100000000000000000 4)
              slashed_archiver)).
  - vm_compute. reflexivity.
  - vm_compute. reflexivity.
  - reflexivity.
Defined.

(** ** Slashing does not settle *)

(** C1 fails on the slashing paths.  In [funded_archiver] the archiver has
    0.1 ether of rewards pending.  After a challenge against it is opened
    and lost, its stake went from 0.1 to 0.09 ether while its reward debt is
    what it was, nothing was sent to it (the only transfer is the
    challenger's), and what it can still claim has shrunk to 0.09 ether.
    Had it claimed before the slash, the unchanged debt would exceed what
    its reduced stake has accumulated, and [claimRewards], [addStake] and
    [withdrawStake] would all revert with [Panic]. *)
Theorem slash_skips_settlement :
  let before :=
    run [ (call_createChallenge 1%N 7%N, mkMsg 8%N 10000000000000000 3) ]
      funded_archiver in
  let after := run [ (call_resolveChallenge 0 false, mkMsg 100%N 0 4) ] before in
  let claimed_before :=
    run [ (call_claimRewards, mkMsg 1%N 0 3);
          (call_createChallenge 1%N 7%N, mkMsg 8%N 10000000000000000 3);
          (call_resolveChallenge 0 false, mkMsg 100%N 0 4) ] funded_archiver in
  pendingRewards 1%N before = Ok 100000000000000000 /\
  stake (archiverOf before 1%N) = 100000000000000000 /\
  is_ok (resolveChallenge 0 false (mkMsg 100%N 0 4) before) = true /\
  stake (archiverOf after 1%N) = 90000000000000000 /\
  rewardDebtOf after 1%N = rewardDebtOf before 1%N /\
  sent after = [(8%N, 20000000000000000)] /\
  pendingRewards 1%N after = Ok 90000000000000000 /\
  claimRewards (mkMsg 1%N 0 5) claimed_before = Err Panic /\
  addStake (mkMsg 1%N 10 5) claimed_before = Err Panic /\
  withdrawStake 90000000000000000 (mkMsg 1%N 0 5) claimed_before = Err Panic.
Proof. vm_compute. repeat split; reflexivity. Qed.

(** ** Challenges are terminal *)

Lemma commitAll_challenges hs m s s' :
  commitAll hs m s = Ok s' ->
  challenges s' = challenges s /\ nextChallengeId s' = nextChallengeId s.
Proof.
  revert s. induction hs as [|h hs IH]; simpl; intros s H.
  - injection H as <-. auto.
  - apply bind_Ok in H. destruct H as (s1 & H1 & H).
    destruct (IH _ H) as [-> ->].
    unfold commitOne in H1. cbv zeta in H1. inv_calls. auto.
Qed.

(** What a successful call does to the challenge table: nothing, or it
    opens the next challenge, or it resolves an open one. *)
Inductive challenge_effect (c : Call) (m : Msg) (s s' : State) : Prop :=
| effect_none :
    challenges s' = challenges s ->
    nextChallengeId s' = nextChallengeId s ->
    challenge_effect c m s s'
| effect_open a h :
    c = call_createChallenge a h ->
    0 <= block_timestamp m + CHALLENGE_PERIOD <= MAX_UINT256 ->
    0 <= nextChallengeId s + 1 <= MAX_UINT256 ->
    challenges s' =
      <[nextChallengeId s :=
          mkChallenge (msg_sender m) a h (block_timestamp m + CHALLENGE_PERIOD)
            false false]> (challenges s) ->
    nextChallengeId s' = nextChallengeId s + 1 ->
    challenge_effect c m s s'
| effect_resolve cid b :
    c = call_resolveChallenge cid b \/
    (c = call_resolveExpiredChallenge cid /\ b = false) ->
    deadline (challengeOf s cid) <> 0 ->
    resolved (challengeOf s cid) = false ->
    challenges s' =
      <[cid := set_archiverWon b (set_resolved true (challengeOf s cid))]>
        (challenges s) ->
    nextChallengeId s' = nextChallengeId s ->
    challenge_effect c m s s'.

Lemma call_challenge_effect c m s s' :
  call c m s = Ok s' -> challenge_effect c m s s'.
Proof.
  destruct c; simpl; intros H; try (apply nonpayable_Ok in H).
  - unfold register in H. cbv zeta in H. inv_calls. now apply effect_none.
  - unfold addStake in H. cbv zeta in H. inv_calls. frames.
    apply effect_none; sproj; congruence.
  - unfold withdrawStake in H. cbv zeta in H.
    inv_calls; frames; apply effect_none; sproj; congruence.
  - unfold deactivate in H. inv_calls. frames. now apply effect_none.
  - unfold commitToBlob, commitOne in H. cbv zeta in H. inv_calls.
    now apply effect_none.
  - unfold batchCommitToBlobs in H. inv_calls.
    match goal with
    | Hc : commitAll _ _ _ = Ok _ |- _ =>
        destruct (commitAll_challenges _ _ _ _ Hc)
    end.
    now apply effect_none.
  - apply bind_Ok in H. destruct H as (r & Hr & H). injection H as <-.
    unfold createChallenge in Hr. cbv zeta in Hr. inv_calls.
    eapply effect_open; sproj; try reflexivity; assumption.
  - unfold resolveChallenge in H. cbv zeta in H.
    inv_calls; frames;
      (eapply (effect_resolve _ _ _ _ challengeId _);
       [ left; reflexivity | assumption | assumption
       | simp_state; reflexivity | reflexivity ]).
  - unfold resolveExpiredChallenge in H. cbv zeta in H.
    inv_calls; frames;
      (eapply (effect_resolve _ _ _ _ challengeId false);
       [ right; split; reflexivity | assumption | assumption
       | simp_state; reflexivity | reflexivity ]).
  - unfold fundRewardPool in H. cbv zeta in H.
    inv_calls; now apply effect_none.
  - unfold claimRewards in H. frames. now apply effect_none.
  - unfold receive in H. cbv zeta in H. inv_calls; now apply effect_none.
  - unfold setFeeRecipient in H. inv_calls. now apply effect_none.
Qed.

(** Every challenge on record has an identifier below the counter and a
    deadline that is not zero. *)
Definition Inv_chal (s : State) : Prop :=
  0 <= nextChallengeId s /\
  forall cid c, challenges s !! cid = Some c ->
                cid < nextChallengeId s /\ deadline c <> 0.

Lemma Inv_chal_init deployer recipient : Inv_chal (init deployer recipient).
Proof.
  split; [simpl; lia|]. intros cid c H. simpl in H.
  rewrite lookup_empty in H. discriminate.
Qed.

Lemma challengeOf_deadline s cid :
  deadline (challengeOf s cid) <> 0 ->
  challenges s !! cid = Some (challengeOf s cid).
Proof.
  unfold challengeOf. destruct (challenges s !! cid); simpl; [reflexivity|].
  intros H. now contradiction H.
Qed.

Lemma call_Inv_chal c m s s' :
  call c m s = Ok s' -> wf_msg m -> Inv_chal s -> Inv_chal s'.
Proof.
  intros H Hm [Hn Hc]. apply call_challenge_effect in H.
  destruct H as [Hch Hnx | a h _ Hdl Hnr Hch Hnx | cid b _ Hd Hr Hch Hnx];
    unfold Inv_chal; rewrite Hch, Hnx.
  - auto.
  - split; [lia|]. intros cid ch Hl.
    destruct (decide (nextChallengeId s = cid)) as [<-|Hne].
    + rewrite lookup_insert_eq in Hl. injection Hl as <-. simpl.
      destruct Hm as [_ Ht]. unfold CHALLENGE_PERIOD. lia.
    + rewrite lookup_insert_ne in Hl by assumption.
      destruct (Hc _ _ Hl). split; [lia | assumption].
  - split; [assumption|]. intros cid' ch Hl.
    destruct (decide (cid = cid')) as [<-|Hne].
    + rewrite lookup_insert_eq in Hl. injection Hl as <-. simpl.
      split; [|assumption].
      apply (Hc cid (challengeOf s cid)). now apply challengeOf_deadline.
    + rewrite lookup_insert_ne in Hl by assumption. now apply Hc.
Qed.

Lemma execute_Inv_chal c m s : wf_msg m -> Inv_chal s -> Inv_chal (execute c m s).
Proof.
  intros Hm Hs. unfold execute. destruct (call c m s) eqn:H; [|assumption].
  eapply call_Inv_chal; eassumption.
Qed.

Lemma reachable_Inv_chal s : reachable s -> Inv_chal s.
Proof.
  induction 1 as [|c m s _ IH Hm _].
  - apply Inv_chal_init.
  - now apply execute_Inv_chal.
Qed.

(** A resolved challenge survives every call unchanged. *)
Lemma execute_keeps_resolved c m s cid ch :
  Inv_chal s -> challenges s !! cid = Some ch -> resolved ch = true ->
  challenges (execute c m s) !! cid = Some ch.
Proof.
  intros [Hn Hc] Hl Hres. unfold execute.
  destruct (call c m s) eqn:H; [|assumption].
  apply call_challenge_effect in H.
  destruct H as [Hch Hnx | ? ? _ Hdl Hnr Hch Hnx | cid' b _ Hd Hr Hch Hnx];
    rewrite Hch.
  - assumption.
  - rewrite lookup_insert_ne; [assumption|].
    destruct (Hc _ _ Hl). lia.
  - rewrite lookup_insert_ne; [assumption|].
    intros ->. unfold challengeOf in Hr. rewrite Hl in Hr. simpl in Hr. congruence.
Qed.

Lemma run_keeps_resolved cs s cid ch :
  wf_trace cs -> Inv_chal s ->
  challenges s !! cid = Some ch -> resolved ch = true ->
  Inv_chal (run cs s) /\ challenges (run cs s) !! cid = Some ch.
Proof.
  revert s. induction cs as [|[c m] cs IH]; simpl; intros s Hwf Hs Hl Hres.
  - auto.
  - inversion Hwf as [|? ? [_ Hm] Hrest]; subst. apply IH.
    + assumption.
    + now apply execute_Inv_chal.
    + now apply execute_keeps_resolved.
    + assumption.
Qed.

(** C6.  Once a challenge of a reachable state is resolved, it is
    terminal: after any further sequence of calls its record, and so its
    [resolved] flag and its outcome [archiverWon], is what it was; a
    [resolveChallenge] by the owner and a [resolveExpiredChallenge] by
    anyone revert with [ChallengeAlreadyResolved]; and no attempt to resolve
    it, by whomever, changes the state. *)
Theorem resolved_challenge_terminal cs s cid ch :
  reachable s ->
  challenges s !! cid = Some ch ->
  resolved ch = true ->
  wf_trace cs ->
  let s' := run cs s in
  challenges s' !! cid = Some ch /\
  resolved (challengeOf s' cid) = true /\
  archiverWon (challengeOf s' cid) = archiverWon ch /\
  (forall m b, msg_sender m = owner s' ->
     resolveChallenge cid b m s' = Err ChallengeAlreadyResolved) /\
  (forall m, resolveExpiredChallenge cid m s' = Err ChallengeAlreadyResolved) /\
  (forall m b, execute (call_resolveChallenge cid b) m s' = s') /\
  (forall m, execute (call_resolveExpiredChallenge cid) m s' = s').
Proof.
  intros Hreach Hl Hres Hwf s'.
  destruct (run_keeps_resolved cs s cid ch Hwf (reachable_Inv_chal s Hreach) Hl Hres)
    as [[Hn Hc] Hl'].
  fold s' in Hl', Hc, Hn.
  assert (Hco : challengeOf s' cid = ch) by (unfold challengeOf; now rewrite Hl').
  destruct (Hc _ _ Hl') as [_ Hd]. apply Z.eqb_neq in Hd.
  assert (Hexp : forall m,
             resolveExpiredChallenge cid m s' = Err ChallengeAlreadyResolved).
  { intros m. unfold resolveExpiredChallenge. now rewrite Hco, Hd, Hres. }
  assert (Hown : forall m b, msg_sender m = owner s' ->
             resolveChallenge cid b m s' = Err ChallengeAlreadyResolved).
  { intros m b Hm. unfold resolveChallenge.
    rewrite Hm, N.eqb_refl, Hco, Hd, Hres. reflexivity. }
  repeat split; try assumption.
  - now rewrite Hco.
  - now rewrite Hco.
  - intros m b. unfold execute. simpl. unfold nonpayable.
    destruct (msg_value m =? 0); [|reflexivity].
    unfold resolveChallenge. rewrite Hco, Hd, Hres.
    destruct (negb (msg_sender m =? owner s')%N); reflexivity.
  - intros m. unfold execute. simpl. unfold nonpayable.
    destruct (msg_value m =? 0); [|reflexivity]. now rewrite Hexp.
Qed.

Lemma resolved_challenge_terminal_witness :
  let s := run sample_trace (init 100%N 100%N) in
  let s' := run [ (call_fundRewardPool, mkMsg 9%N 5 10);
                  (call_resolveChallenge 0 true, mkMsg 100%N 0 11) ] s in
  archiverWon (challengeOf s' 0) = false /\
  resolveExpiredChallenge 0 (mkMsg 8%N 0 100000) s' = Err ChallengeAlreadyResolved.
Proof.
  cbv zeta.
  assert (Hwf : wf_trace [ (call_fundRewardPool, mkMsg 9%N 5 10);
                           (call_resolveChallenge 0 true, mkMsg 100%N 0 11) ])
    by (repeat constructor; unfold MAX_UINT256; simpl; lia).
  destruct (resolved_challenge_terminal
              [ (call_fundRewardPool, mkMsg 9%N 5 10);
                (call_resolveChallenge 0 true, mkMsg 100%N 0 11) ]
              (run sample_trace (init 100%N 100%N)) 0
              (mkChallenge 8%N 1%N 7%N 86403 true false)
              (run_reachable sample_trace _ sample_trace_wf
                 (reachable_init 100%N 100%N))
              ltac:(vm_compute; reflexivity) eq_refl Hwf)
    as (_ & _ & Hwon & _ & Hexp & _).
  split; [exact Hwon | apply Hexp].
Defined.

(** ** Rewards paid against rewards funded *)

(** Totals read off the event log: what settlements paid
    ([RewardsClaimed]), what was funded ([RewardPoolFunded], emitted by
    [fundRewardPool] and [receive]), and how many times a stake was set
    ([ArchiverRegistered], [StakeAdded], [StakeWithdrawn]). *)
Fixpoint rewardsPaid (ev : list Event) : Z :=
  match ev with
  | [] => 0
  | RewardsClaimed _ amount :: rest => amount + rewardsPaid rest
  | _ :: rest => rewardsPaid rest
  end.

Fixpoint funded (ev : list Event) : Z :=
  match ev with
  | [] => 0
  | RewardPoolFunded _ amount :: rest => amount + funded rest
  | _ :: rest => funded rest
  end.

Fixpoint stakeOps (ev : list Event) : Z :=
  match ev with
  | [] => 0
  | ArchiverRegistered _ _ _ _ :: rest => 1 + stakeOps rest
  | StakeAdded _ _ _ :: rest => 1 + stakeOps rest
  | StakeWithdrawn _ _ _ :: rest => 1 + stakeOps rest
  | _ :: rest => stakeOps rest
  end.

(** Two archivers register with a stake whose accumulated reward has a
    fractional part of 0.9 wei; one more wei of funding lifts each of them
    over the next whole wei. *)
Definition rounding_trace : list (Call * Msg) :=
  [ (call_register "a", mkMsg 1%N 100000000000000000 1);
    (call_fundRewardPool, mkMsg 9%N 9 2);
    (call_register "b1", mkMsg 2%N 110000000000000000 3);
    (call_register "b2", mkMsg 3%N 110000000000000000 3);
    (call_fundRewardPool, mkMsg 9%N 1 4);
    (call_claimRewards, mkMsg 1%N 0 5);
    (call_claimRewards, mkMsg 2%N 0 5);
    (call_claimRewards, mkMsg 3%N 0 5) ].

(** C3, as stated, fails: 10 wei were funded and 11 wei were paid out in
    settlements; the missing wei came out of the stakes, and the contract
    holds less than [totalStake]. *)
Lemma rounding_pays_more_than_funded :
  let s := run rounding_trace (init 100%N 100%N) in
  wf_trace rounding_trace /\
  funded (events s) = 10 /\
  rewardPool s = 10 /\
  rewardsPaid (events s) = 11 /\
  sent s = [(3%N, 1); (2%N, 1); (1%N, 9)] /\
  ~ (rewardsPaid (events s) <= funded (events s)) /\
  balance s < totalStake s.
Proof.
  cbv zeta. split.
  - unfold rounding_trace. repeat constructor; unfold MAX_UINT256; simpl; lia.
  - vm_compute. repeat split; try reflexivity. intros H. now apply H.
Qed.

(** What an archiver's stake has accumulated beyond its reward debt, in
    units of 1/SCALE wei, and never less than zero. *)
Definition owedAt (acc : Z) (rd : gmap N Z) (k : N) (x : Archiver) : Z :=
  Z.max 0 (stake x * acc - SCALE * default 0 (rd !! k)).

Definition owedOf (s : State) (k : address) : Z :=
  owedAt (accRewardPerStake s) (rewardDebt s) k (archiverOf s k).

Definition owed (s : State) : Z :=
  sumOver (owedAt (accRewardPerStake s) (rewardDebt s)) (archivers s).

Lemma share_owed s k :
  0 <= rewardDebtOf s k ->
  share (owedAt (accRewardPerStake s) (rewardDebt s)) k (archivers s) = owedOf s k.
Proof.
  unfold share, owedOf, archiverOf, rewardDebtOf. intros Hd.
  destruct (archivers s !! k); [reflexivity|].
  unfold owedAt. simpl. unfold SCALE. lia.
Qed.

Lemma owed_local s s' k :
  accRewardPerStake s' = accRewardPerStake s ->
  (forall j, j <> k -> archivers s' !! j = archivers s !! j) ->
  (forall j, j <> k -> rewardDebt s' !! j = rewardDebt s !! j) ->
  0 <= rewardDebtOf s k ->
  0 <= rewardDebtOf s' k ->
  owed s' - owedOf s' k = owed s - owedOf s k.
Proof.
  intros Hacc Har Hrd Hd Hd'. unfold owed.
  rewrite <- (share_owed s k Hd), <- (share_owed s' k Hd').
  apply sumOver_local; [assumption|].
  intros j x Hj. unfold owedAt. now rewrite Hacc, (Hrd j Hj).
Qed.

Lemma owed_funded s s' d :
  accRewardPerStake s' = accRewardPerStake s + d ->
  0 <= d ->
  archivers s' = archivers s ->
  rewardDebt s' = rewardDebt s ->
  (forall a, 0 <= stake (archiverOf s a)) ->
  owed s' <= owed s + d * stakeSum s.
Proof.
  intros Hacc Hd Har Hrd Hpos. unfold owed, stakeSum.
  rewrite Har, Hrd, Hacc.
  rewrite <- sumOver_scale, <- sumOver_plus.
  apply sumOver_le. intros k x Hk.
  specialize (Hpos k). unfold archiverOf in Hpos. rewrite Hk in Hpos. simpl in Hpos.
  unfold owedAt.
  assert (0 <= d * stake x) by (apply Z.mul_nonneg_nonneg; assumption).
  lia.
Qed.

(** Settlements never run ahead of funding by more than the rounding of
    one wei per stake change. *)
Definition Inv_reward (s : State) : Prop :=
  0 <= accRewardPerStake s /\
  (forall a, 0 <= rewardDebtOf s a) /\
  SCALE * rewardsPaid (events s) + owed s <=
  SCALE * (funded (events s) + stakeOps (events s)).

Lemma Inv_reward_init deployer recipient : Inv_reward (init deployer recipient).
Proof.
  unfold Inv_reward, owed, rewardDebtOf, init. simpl.
  rewrite sumOver_empty. repeat split; intros; rewrite ?lookup_empty; simpl; lia.
Qed.

Lemma Inv_reward_same s s' :
  Inv_reward s ->
  accRewardPerStake s' = accRewardPerStake s ->
  archivers s' = archivers s ->
  rewardDebt s' = rewardDebt s ->
  rewardsPaid (events s') = rewardsPaid (events s) ->
  funded (events s') = funded (events s) ->
  stakeOps (events s') = stakeOps (events s) ->
  Inv_reward s'.
Proof.
  unfold Inv_reward, owed, rewardDebtOf. intros (H1 & H2 & H3) -> -> -> -> -> ->.
  auto.
Qed.

Lemma Inv_reward_local s s' k :
  Inv_reward s ->
  accRewardPerStake s' = accRewardPerStake s ->
  (forall j, j <> k -> archivers s' !! j = archivers s !! j) ->
  (forall j, j <> k -> rewardDebt s' !! j = rewardDebt s !! j) ->
  0 <= rewardDebtOf s' k ->
  SCALE * rewardsPaid (events s') + owedOf s' k
    + SCALE * (funded (events s) + stakeOps (events s)) <=
  SCALE * rewardsPaid (events s) + owedOf s k
    + SCALE * (funded (events s') + stakeOps (events s')) ->
  Inv_reward s'.
Proof.
  intros (Hacc & Hd & Hmain) Ha Har Hrd Hk Hle. split; [|split].
  - now rewrite Ha.
  - intros a. destruct (decide (a = k)) as [->|Hne]; [assumption|].
    unfold rewardDebtOf. rewrite (Hrd a Hne). apply Hd.
  - pose proof (owed_local s s' k Ha Har Hrd (Hd k) Hk). lia.
Qed.

Ltac off_key :=
  let j := fresh "j" in
  let Hj := fresh "Hj" in
  intros j Hj; simp_state; rewrite ?lookup_insert_ne by congruence; reflexivity.

(** The invariant carries over to a state built from [s] by writes at
    key [k]. *)
Ltac reward_at s k Hs :=
  eapply (Inv_reward_local s _ k);
  [ exact Hs | reflexivity | off_key | off_key | .. ];
  destruct Hs as (Hacc & Hdebt & _);
  pose proof (Hdebt k);
  unfold owedOf, owedAt;
  simp_state; cbn [rewardsPaid funded stakeOps].

Lemma _claimRewards_Inv_reward a now s s' :
  _claimRewards a now s = Ok s' -> Inv_reward s -> Inv_reward s'.
Proof.
  intros H Hs. apply _claimRewards_Ok in H.
  destruct H as [[-> _] | (-> & Hst & Hr & Hp)]; [assumption|].
  unfold settled. reward_at s a Hs.
  all: unfold_consts; Z.to_euclidean_division_equations; lia.
Qed.

Lemma _deactivateArchiver_Inv_reward a now s s' :
  _deactivateArchiver a now s = Ok s' -> Inv_reward s -> Inv_reward s'.
Proof.
  intros H Hs. apply _deactivateArchiver_Ok in H. destruct H as (aa & ai & ->).
  reward_at s a Hs; lia.
Qed.

Lemma register_Inv_reward ep m s s' :
  register ep m s = Ok s' -> Inv_reward s -> Inv_reward s'.
Proof.
  unfold register. intros H Hs. cbv zeta in H. inv_calls.
  reward_at s (msg_sender m) Hs.
  all: unfold_consts; Z.to_euclidean_division_equations; lia.
Qed.

Ltac reward_same Hs :=
  apply (Inv_reward_same _ _ Hs); reflexivity.

Ltac zdiv := unfold_consts; Z.to_euclidean_division_equations; lia.

Lemma addStake_Inv_reward m s s' :
  addStake m s = Ok s' -> Inv_reward s -> Inv_reward s'.
Proof.
  unfold addStake. intros H Hs. cbv zeta in H. inv_calls.
  match goal with
  | Hc : _claimRewards _ _ _ = Ok ?x |- _ =>
      assert (Hx : Inv_reward x)
        by (apply (_claimRewards_Inv_reward _ _ _ _ Hc); reward_same Hs);
      clear Hc; reward_at x (msg_sender m) Hx
  end.
  all: zdiv.
Qed.

Lemma withdrawStake_Inv_reward amount m s s' :
  withdrawStake amount m s = Ok s' -> Inv_reward s -> Inv_reward s'.
Proof.
  unfold withdrawStake. intros H Hs. cbv zeta in H. inv_calls.
  all: match goal with
       | Hc : _claimRewards _ _ _ = Ok ?x |- _ =>
           assert (Hx : Inv_reward x)
             by apply (_claimRewards_Inv_reward _ _ _ _ Hc Hs);
           clear Hc; frames; reward_at x (msg_sender m) Hx
       end.
  all: zdiv.
Qed.

Lemma commitOne_Inv_reward h m s s' :
  commitOne h m s = Ok s' -> Inv_reward s -> Inv_reward s'.
Proof.
  unfold commitOne. intros H Hs. cbv zeta in H. inv_calls.
  reward_at s (msg_sender m) Hs; lia.
Qed.

Lemma commitAll_Inv_reward hs m s s' :
  commitAll hs m s = Ok s' -> Inv_reward s -> Inv_reward s'.
Proof.
  revert s. induction hs as [|h hs IH]; simpl; intros s H Hs.
  - now injection H as <-.
  - apply bind_Ok in H. destruct H as (s1 & H1 & H).
    eapply IH; [exact H|]. eapply commitOne_Inv_reward; eassumption.
Qed.

Lemma createChallenge_Inv_reward a h m s r :
  createChallenge a h m s = Ok r -> Inv_reward s -> Inv_reward (snd r).
Proof.
  unfold createChallenge. intros H Hs. cbv zeta in H. inv_calls.
  reward_same Hs.
Qed.

(** A slash lowers what is owed, or leaves it. *)
Lemma slash_owed st acc debt :
  0 <= st * SLASH_PERCENT -> 0 <= acc ->
  Z.max 0 ((st - st * SLASH_PERCENT / 100) * acc - SCALE * debt) <=
  Z.max 0 (st * acc - SCALE * debt).
Proof.
  intros Hst Hacc.
  assert (0 <= st * SLASH_PERCENT / 100) by (apply Z.div_pos; lia).
  assert (0 <= st * SLASH_PERCENT / 100 * acc) by (apply Z.mul_nonneg_nonneg; lia).
  lia.
Qed.

Ltac slash_reward who Hs2 :=
  inv_calls; frames;
  match goal with
  | |- Inv_reward ?t =>
      match t with
      | context [modifyArchiver who _ ?s2] =>
          match type of Hs2 with
          | Inv_reward s2 => reward_at s2 who Hs2
          end
      end
  end;
  try lia;
  match goal with
  | |- context [Z.max 0 ((?st - _) * ?acc - SCALE * ?d)] =>
      pose proof (slash_owed st acc d)
  end; lia.

Lemma resolveChallenge_Inv_reward cid b m s s' :
  resolveChallenge cid b m s = Ok s' -> Inv_reward s -> Inv_reward s'.
Proof.
  unfold resolveChallenge. intros H Hs. cbv zeta in H.
  do 3 inv_step H.
  set (s2 := modifyChallenge cid (set_archiverWon b)
               (modifyChallenge cid (set_resolved true) s)) in *.
  assert (Hs2 : Inv_reward s2) by reward_same Hs.
  clearbody s2. clear Hs.
  set (who := archiver (challengeOf s2 cid)) in *. clearbody who.
  slash_reward who Hs2.
Qed.

Lemma resolveExpiredChallenge_Inv_reward cid m s s' :
  resolveExpiredChallenge cid m s = Ok s' -> Inv_reward s -> Inv_reward s'.
Proof.
  unfold resolveExpiredChallenge. intros H Hs. cbv zeta in H.
  do 3 inv_step H.
  set (s2 := modifyChallenge cid (set_archiverWon false)
               (modifyChallenge cid (set_resolved true) s)) in *.
  assert (Hs2 : Inv_reward s2) by reward_same Hs.
  clearbody s2. clear Hs.
  set (who := archiver (challengeOf s2 cid)) in *. clearbody who.
  slash_reward who Hs2.
Qed.

Lemma deactivate_Inv_reward m s s' :
  deactivate m s = Ok s' -> Inv_reward s -> Inv_reward s'.
Proof.
  unfold deactivate. intros H Hs. inv_calls.
  eapply _deactivateArchiver_Inv_reward; eassumption.
Qed.

(** Funding: the accumulator moves by [value * SCALE / totalStake], which
    spread over the stakes is at most [value * SCALE]. *)
Lemma funding_Inv_reward s s' v ev :
  Inv_stake s -> Inv_reward s ->
  0 <= v ->
  0 <= v * SCALE ->
  0 < totalStake s ->
  accRewardPerStake s' = accRewardPerStake s + v * SCALE / totalStake s ->
  archivers s' = archivers s ->
  rewardDebt s' = rewardDebt s ->
  events s' = RewardPoolFunded ev v :: events s ->
  Inv_reward s'.
Proof.
  intros (Htot & Hpos & _) (Hacc & Hd & Hmain) Hv Hvs Ht Ha Har Hrd Hev.
  pose proof (Z.div_pos (v * SCALE) (totalStake s) Hvs Ht) as Hq.
  split; [|split].
  - lia.
  - intros a. unfold rewardDebtOf. rewrite Hrd. apply Hd.
  - pose proof (owed_funded s s' _ Ha Hq Har Hrd Hpos) as Ho.
    pose proof (Z.mul_div_le (v * SCALE) (totalStake s) Ht) as Hle.
    rewrite Hev. cbn [rewardsPaid funded stakeOps].
    rewrite <- Htot in Ho.
    replace (v * SCALE / totalStake s * totalStake s)
      with (totalStake s * (v * SCALE / totalStake s)) in Ho by lia.
    lia.
Qed.

Lemma fundRewardPool_Inv_reward m s s' :
  fundRewardPool m s = Ok s' -> wf_msg m -> Inv_stake s -> Inv_reward s ->
  Inv_reward s'.
Proof.
  unfold fundRewardPool. intros H [[Hv _] _] Hst Hs. cbv zeta in H. inv_calls.
  - sproj.
    eapply (funding_Inv_reward s _ (msg_value m));
      [ exact Hst | exact Hs | exact Hv | lia | assumption
      | reflexivity | reflexivity | reflexivity | reflexivity ].
  - destruct Hs as (Hacc & Hd & Hmain). split; [|split]; try assumption.
    change (SCALE * rewardsPaid (events s) + owed s <=
            SCALE * (msg_value m + funded (events s) + stakeOps (events s))).
    unfold SCALE in *. lia.
Qed.

Lemma receive_Inv_reward m s s' :
  receive m s = Ok s' -> wf_msg m -> Inv_stake s -> Inv_reward s ->
  Inv_reward s'.
Proof.
  unfold receive. intros H [[Hv _] _] Hst Hs. cbv zeta in H. inv_calls.
  - sproj.
    eapply (funding_Inv_reward s _ (msg_value m));
      [ exact Hst | exact Hs | exact Hv | lia | assumption
      | reflexivity | reflexivity | reflexivity | reflexivity ].
  - destruct Hs as (Hacc & Hd & Hmain). split; [|split]; try assumption.
    change (SCALE * rewardsPaid (events s) + owed s <=
            SCALE * (msg_value m + funded (events s) + stakeOps (events s))).
    unfold SCALE in *. lia.
Qed.

Lemma call_Inv_reward c m s s' :
  call c m s = Ok s' -> wf_msg m -> Inv_stake s -> Inv_reward s -> Inv_reward s'.
Proof.
  destruct c; simpl; intros H Hm Hst Hs;
    try (apply nonpayable_Ok in H).
  - eapply register_Inv_reward; eassumption.
  - eapply addStake_Inv_reward; eassumption.
  - eapply withdrawStake_Inv_reward; eassumption.
  - eapply deactivate_Inv_reward; eassumption.
  - unfold commitToBlob in H. inv_results.
    eapply commitOne_Inv_reward; eassumption.
  - unfold batchCommitToBlobs in H. inv_results.
    eapply commitAll_Inv_reward; eassumption.
  - apply bind_Ok in H. destruct H as (r & Hr & H). injection H as <-.
    eapply createChallenge_Inv_reward; eassumption.
  - eapply resolveChallenge_Inv_reward; eassumption.
  - eapply resolveExpiredChallenge_Inv_reward; eassumption.
  - eapply fundRewardPool_Inv_reward; eassumption.
  - eapply _claimRewards_Inv_reward; eassumption.
  - eapply receive_Inv_reward; eassumption.
  - unfold setFeeRecipient in H. inv_results. reward_same Hs.
Qed.

Lemma run_Inv_reward cs s :
  wf_trace cs -> Inv_stake s -> Inv_reward s ->
  Inv_reward (run cs s).
Proof.
  revert s. induction cs as [|[c m] cs IH]; simpl; intros s Hwf Hst Hs.
  - assumption.
  - inversion Hwf as [|? ? [_ Hm] Hrest]; subst.
    apply IH; [assumption | now apply execute_Inv_stake |].
    unfold execute. destruct (call c m s) eqn:H; [|assumption].
    eapply call_Inv_reward; eassumption.
Qed.

Lemma owed_nonneg s : 0 <= owed s.
Proof.
  unfold owed.
  rewrite <- (sumOver_scale 0 (fun _ _ => 0) (archivers s)) at 1.
  apply sumOver_le. intros k x _. unfold owedAt. lia.
Qed.

(** The bound along calls that each run to completion before the next
    one starts. *)
Lemma run_rewards_paid_bound cs deployer recipient :
  wf_trace cs ->
  rewardsPaid (events (run cs (init deployer recipient))) <=
  funded (events (run cs (init deployer recipient)))
  + stakeOps (events (run cs (init deployer recipient))).
Proof.
  intros Hwf.
  pose proof (run_Inv_reward cs (init deployer recipient) Hwf
                (Inv_stake_init _ _) (Inv_reward_init _ _)) as (_ & _ & Hmain).
  pose proof (owed_nonneg (run cs (init deployer recipient))).
  unfold SCALE in *. lia.
Qed.

(** * Further properties of the registry *)

(** ** Registration *)

(** X1.  [register] reverts with [InsufficientStake] below [MIN_STAKE]
    and, past that test, with [ArchiverAlreadyRegistered] for a sender whose
    record has a registration time; on success the sender's record is the
    fresh one with the value as stake, the sender is appended to
    [activeArchivers] at the position its index names, [totalStake] grows by
    the value, and the sender has no rewards pending. *)
Theorem register_effects ep m s :
  (msg_value m < MIN_STAKE -> register ep m s = Err InsufficientStake) /\
  (MIN_STAKE <= msg_value m -> registeredAt (archiverOf s (msg_sender m)) <> 0 ->
   register ep m s = Err ArchiverAlreadyRegistered) /\
  (forall s', register ep m s = Ok s' ->
     archiverOf s' (msg_sender m) =
       mkArchiver (msg_value m) (block_timestamp m) (block_timestamp m)
         0 0 0 true ep /\
     activeArchivers s' = activeArchivers s ++ [msg_sender m] /\
     archiverIndexOf s' (msg_sender m) = Z.of_nat (length (activeArchivers s')) /\
     totalStake s' = totalStake s + msg_value m /\
     balance s' = balance s + msg_value m /\
     pendingRewards (msg_sender m) s' = Ok 0).
Proof.
  split; [|split].
  - intros Hlt. unfold register. cbv zeta.
    apply Z.ltb_lt in Hlt. now rewrite Hlt.
  - intros Hge Hr. unfold register. cbv zeta.
    apply Z.ltb_ge in Hge. rewrite Hge.
    change (archiverOf (credit (msg_value m) s) (msg_sender m))
      with (archiverOf s (msg_sender m)).
    apply Z.eqb_neq in Hr. now rewrite Hr.
  - intros s' H. unfold register in H. cbv zeta in H. inv_calls.
    unfold pendingRewards. simp_state.
    repeat split; try reflexivity.
    unfold MIN_STAKE in *.
    destruct (msg_value m =? 0) eqn:Hz; [reflexivity|].
    unfold mul, sub. rewrite checked_in by assumption. cbn [bind].
    rewrite Z.sub_diag. apply checked_in. unfold MAX_UINT256. lia.
Qed.

Lemma register_effects_witness :
  pendingRewards 2%N
    (execute (call_register "b") (mkMsg 2%N 110000000000000000 3) funded_archiver)
  = Ok 0.
Proof.
  apply (register_effects "b" (mkMsg 2%N 110000000000000000 3) funded_archiver).
  vm_compute. reflexivity.
Defined.

(** * Re-entrancy

    A transfer [payable(to).call{value: amount}("")] hands control to the
    recipient.  A recipient with code can call back into the registry
    before the function that pays it has finished; the functions marked
    [nonReentrant] then revert, the others run. *)

(** What the recipient's code does to the registry when it is paid. *)
Definition Callback : Type := N -> State -> result State.

(** An externally owned account: nothing happens. *)
Definition inert : Callback := fun _ s => Ok s.

(** The transfer: the value leaves, the recipient's code runs, and a
    failure there makes [success] false. *)
Definition send_cb (k : Callback) (to : address) (amount : uint256) (s : State)
  : result State :=
  if amount <=? balance s
  then match k to (set_sent ((to, amount) :: sent s)
                     (set_balance (balance s - amount) s)) with
       | Ok s' => Ok s'
       | Err _ => Err TransferFailed
       end
  else Err TransferFailed.

(** The functions that transfer value, with the recipient's code running
    where the source makes the call. *)

Definition _claimRewards_cb (k : Callback) (archiverAddr : address) (now : uint256)
    (s : State) : result State :=
  if stake (archiverOf s archiverAddr) =? 0 then Ok s else
  prod <- mul (stake (archiverOf s archiverAddr)) (accRewardPerStake s) ;;
  let accumulated := prod / SCALE in
  pending <- sub accumulated (rewardDebtOf s archiverAddr) ;;
  if 0 <? pending then
    let s1 := set_rewardDebt (<[archiverAddr := accumulated]> (rewardDebt s)) s in
    let s2 := modifyArchiver archiverAddr (set_lastClaimAt now) s1 in
    s3 <- send_cb k archiverAddr pending s2 ;;
    Ok (emit (RewardsClaimed archiverAddr pending) s3)
  else Ok s.

Definition addStake_cb (k : Callback) (m : Msg) (s0 : State) : result State :=
  let s := credit (msg_value m) s0 in
  if registeredAt (archiverOf s (msg_sender m)) =? 0 then Err NotAnArchiver else
  s1 <- _claimRewards_cb k (msg_sender m) (block_timestamp m) s ;;
  newStake <- add (stake (archiverOf s1 (msg_sender m))) (msg_value m) ;;
  let s2 := modifyArchiver (msg_sender m) (set_stake newStake) s1 in
  total <- add (totalStake s2) (msg_value m) ;;
  let s3 := set_totalStake total s2 in
  prod <- mul (stake (archiverOf s3 (msg_sender m))) (accRewardPerStake s3) ;;
  let s4 := set_rewardDebt (<[msg_sender m := prod / SCALE]> (rewardDebt s3)) s3 in
  Ok (emit (StakeAdded (msg_sender m) (msg_value m)
              (stake (archiverOf s4 (msg_sender m)))) s4).

(** [newStake] is a local variable, computed before the settlement pays
    out and written after it. *)
Definition withdrawStake_cb (k : Callback) (amount : uint256) (m : Msg) (s : State)
  : result State :=
  if registeredAt (archiverOf s (msg_sender m)) =? 0 then Err NotAnArchiver else
  if stake (archiverOf s (msg_sender m)) <? amount then Err WithdrawalExceedsStake else
  newStake <- sub (stake (archiverOf s (msg_sender m))) amount ;;
  if (0 <? newStake) && (newStake <? MIN_STAKE) then Err StakeBelowMinimum else
  s1 <- _claimRewards_cb k (msg_sender m) (block_timestamp m) s ;;
  let s2 := modifyArchiver (msg_sender m) (set_stake newStake) s1 in
  total <- sub (totalStake s2) amount ;;
  let s3 := set_totalStake total s2 in
  prod <- mul newStake (accRewardPerStake s3) ;;
  let s4 := set_rewardDebt (<[msg_sender m := prod / SCALE]> (rewardDebt s3)) s3 in
  s5 <- (if newStake =? 0
         then _deactivateArchiver (msg_sender m) (block_timestamp m) s4
         else Ok s4) ;;
  s6 <- send_cb k (msg_sender m) amount s5 ;;
  Ok (emit (StakeWithdrawn (msg_sender m) amount newStake) s6).

Definition claimRewards_cb (k : Callback) (m : Msg) (s : State) : result State :=
  _claimRewards_cb k (msg_sender m) (block_timestamp m) s.

Definition resolveChallenge_cb (k : Callback) (challengeId : uint256)
    (archiverHasData : bool) (m : Msg) (s : State) : result State :=
  if negb (msg_sender m =? owner s)%N then Err OwnableUnauthorizedAccount else
  if deadline (challengeOf s challengeId) =? 0 then Err ChallengeNotFound else
  if resolved (challengeOf s challengeId) then Err ChallengeAlreadyResolved else
  let s1 := modifyChallenge challengeId (set_resolved true) s in
  let s2 := modifyChallenge challengeId (set_archiverWon archiverHasData) s1 in
  let who := archiver (challengeOf s2 challengeId) in
  if archiverHasData then
    won <- add (successfulChallenges (archiverOf s2 who)) 1 ;;
    let s3 := modifyArchiver who (set_successfulChallenges won) s2 in
    s4 <- send_cb k who CHALLENGE_BOND s3 ;;
    Ok (emit (ChallengeResolved challengeId archiverHasData 0) s4)
  else
    lost <- add (failedChallenges (archiverOf s2 who)) 1 ;;
    let s3 := modifyArchiver who (set_failedChallenges lost) s2 in
    prod <- mul (stake (archiverOf s3 who)) SLASH_PERCENT ;;
    let slashAmount := prod / 100 in
    newStake <- sub (stake (archiverOf s3 who)) slashAmount ;;
    let s4 := modifyArchiver who (set_stake newStake) s3 in
    total <- sub (totalStake s4) slashAmount ;;
    let s5 := set_totalStake total s4 in
    challengerReward <- add slashAmount CHALLENGE_BOND ;;
    s6 <- send_cb k (challenger (challengeOf s5 challengeId)) challengerReward s5 ;;
    s7 <- (if stake (archiverOf s6 who) <? MIN_STAKE
           then _deactivateArchiver who (block_timestamp m) s6
           else Ok s6) ;;
    Ok (emit (ChallengeResolved challengeId archiverHasData slashAmount) s7).

Definition resolveExpiredChallenge_cb (k : Callback) (challengeId : uint256)
    (m : Msg) (s : State) : result State :=
  if deadline (challengeOf s challengeId) =? 0 then Err ChallengeNotFound else
  if resolved (challengeOf s challengeId) then Err ChallengeAlreadyResolved else
  if block_timestamp m <? deadline (challengeOf s challengeId)
  then Err ChallengePeriodNotExpired else
  let s1 := modifyChallenge challengeId (set_resolved true) s in
  let s2 := modifyChallenge challengeId (set_archiverWon false) s1 in
  let who := archiver (challengeOf s2 challengeId) in
  lost <- add (failedChallenges (archiverOf s2 who)) 1 ;;
  let s3 := modifyArchiver who (set_failedChallenges lost) s2 in
  prod <- mul (stake (archiverOf s3 who)) SLASH_PERCENT ;;
  let slashAmount := prod / 100 in
  newStake <- sub (stake (archiverOf s3 who)) slashAmount ;;
  let s4 := modifyArchiver who (set_stake newStake) s3 in
  total <- sub (totalStake s4) slashAmount ;;
  let s5 := set_totalStake total s4 in
  challengerReward <- add slashAmount CHALLENGE_BOND ;;
  s6 <- send_cb k (challenger (challengeOf s5 challengeId)) challengerReward s5 ;;
  s7 <- (if stake (archiverOf s6 who) <? MIN_STAKE
         then _deactivateArchiver who (block_timestamp m) s6
         else Ok s6) ;;
  Ok (emit (ChallengeResolved challengeId false slashAmount) s7).

(** The functions the source marks [nonReentrant]. *)
Definition nonReentrant (c : Call) : bool :=
  match c with
  | call_register _ | call_addStake | call_withdrawStake _ | call_claimRewards => true
  | _ => false
  end.

(** The modifier: revert when a [nonReentrant] function is executing. *)
Definition guarded (locked : bool) (r : result State) : result State :=
  if locked then Err ReentrancyGuardReentrantCall else r.

Definition call_cb (k : Callback) (locked : bool) (c : Call) (m : Msg) (s : State)
  : result State :=
  match c with
  | call_register ep => guarded locked (register ep m s)
  | call_addStake => guarded locked (addStake_cb k m s)
  | call_withdrawStake amount =>
      nonpayable m (guarded locked (withdrawStake_cb k amount m s))
  | call_deactivate => nonpayable m (deactivate m s)
  | call_commitToBlob h => nonpayable m (commitToBlob h m s)
  | call_batchCommitToBlobs hs => nonpayable m (batchCommitToBlobs hs m s)
  | call_createChallenge a h =>
      r <- createChallenge a h m s ;; Ok (snd r)
  | call_resolveChallenge id b => nonpayable m (resolveChallenge_cb k id b m s)
  | call_resolveExpiredChallenge id =>
      nonpayable m (resolveExpiredChallenge_cb k id m s)
  | call_fundRewardPool => fundRewardPool m s
  | call_claimRewards => nonpayable m (guarded locked (claimRewards_cb k m s))
  | call_receive => receive m s
  | call_setFeeRecipient r => nonpayable m (setFeeRecipient r m s)
  end.

(** The code of the recipients: for each address, the calls its receive
    function makes into the registry, each with the value it sends along
    and each in a try/catch. *)
Definition Program : Type := N -> list (Call * uint256).

(** The values sent along are of type uint256. *)
Definition wf_program (p : Program) : Prop :=
  forall a, Forall (fun cv => 0 <= snd cv <= MAX_UINT256) (p a).

(** What paying a recipient does, to a nesting depth of [depth]: its calls
    run in order, in the same block; a call that reverts is rolled back and
    the next one runs.  The guard is locked inside a [nonReentrant]
    function and in everything called from there. *)
Fixpoint reenter (depth : nat) (p : Program) (now : uint256) (locked : bool)
  : Callback :=
  match depth with
  | O => inert
  | S d => fun to s =>
      Ok (fold_left
            (fun st cv =>
               match call_cb (reenter d p now (locked || nonReentrant (fst cv)))
                       locked (fst cv) (mkMsg to (snd cv) now) st with
               | Ok st' => st'
               | Err _ => st
               end)
            (p to) s)
  end.

(** A transaction, and a sequence of transactions, with recipients [p]. *)
Definition execute_cb (depth : nat) (p : Program) (c : Call) (m : Msg) (s : State)
  : State :=
  match call_cb (reenter depth p (block_timestamp m) (nonReentrant c)) false c m s with
  | Ok s' => s'
  | Err _ => s
  end.

Fixpoint run_cb (depth : nat) (p : Program) (cs : list (Call * Msg)) (s : State)
  : State :=
  match cs with
  | [] => s
  | (c, m) :: rest => run_cb depth p rest (execute_cb depth p c m s)
  end.

(** ** Recipients without code *)

Lemma call_cb_inert c m s : call_cb inert false c m s = call c m s.
Proof. destruct c; reflexivity. Qed.

Lemma reenter_no_code depth p now locked :
  (forall a, p a = []) -> reenter depth p now locked = inert.
Proof.
  intros Hp. destruct depth; [reflexivity|]. simpl.
  apply functional_extensionality. intros to.
  apply functional_extensionality. intros s.
  now rewrite Hp.
Qed.

Lemma execute_cb_no_code depth p c m s :
  (forall a, p a = []) -> execute_cb depth p c m s = execute c m s.
Proof.
  intros Hp. unfold execute_cb, execute.
  now rewrite (reenter_no_code _ _ _ _ Hp), call_cb_inert.
Qed.

Lemma run_cb_no_code depth p cs s :
  (forall a, p a = []) -> run_cb depth p cs s = run cs s.
Proof.
  intros Hp. revert s. induction cs as [|[c m] cs IH]; simpl; intros s.
  - reflexivity.
  - now rewrite (execute_cb_no_code _ _ _ _ _ Hp), IH.
Qed.

(** ** A withdrawal re-entered through the settlement *)

(** Archiver 1 is a contract whose receive function calls
    [resolveExpiredChallenge(0)]; nobody else has code. *)
Definition reentering_archiver : Program :=
  fun a => if (a =? 1)%N then [(call_resolveExpiredChallenge 0, 0)] else [].

Lemma reentering_archiver_wf : wf_program reentering_archiver.
Proof.
  intros a. unfold reentering_archiver.
  destruct (a =? 1)%N; repeat constructor; unfold MAX_UINT256; simpl; lia.
Defined.

(** Archivers 1 and 2 stake 1 ether each, 1 ether is funded, a challenge
    against archiver 1 is opened and expires, and archiver 1 withdraws its
    whole stake. *)
Definition reentrant_trace : list (Call * Msg) :=
  [ (call_register "a", mkMsg 1%N 1000000000000000000 1);
    (call_register "b", mkMsg 2%N 1000000000000000000 1);
    (call_fundRewardPool, mkMsg 9%N 1000000000000000000 2);
    (call_createChallenge 1%N 7%N, mkMsg 8%N 10000000000000000 3);
    (call_withdrawStake 1000000000000000000, mkMsg 1%N 0 90000) ].

Lemma reentrant_trace_wf : wf_trace reentrant_trace.
Proof.
  unfold reentrant_trace. repeat constructor; unfold MAX_UINT256; simpl; lia.
Defined.

(** C2 fails on the code.  [withdrawStake] computes [newStake = 0],
    then settles; the settlement pays archiver 1, whose code re-enters
    [resolveExpiredChallenge], which is not [nonReentrant] and takes the
    slash of 0.1 ether out of [totalStake]; [withdrawStake] then writes the
    stale [newStake] and subtracts the whole ether.  Archiver 2 still has
    1 ether staked, and [totalStake] says 0.9 ether.  Without the code at
    archiver 1 the same calls keep the two equal. *)
Theorem reentrant_withdraw_breaks_conservation :
  let s := run_cb 2 reentering_archiver reentrant_trace (init 100%N 100%N) in
  let s0 := run reentrant_trace (init 100%N 100%N) in
  wf_trace reentrant_trace /\
  stake (archiverOf s 1%N) = 0 /\
  stake (archiverOf s 2%N) = 1000000000000000000 /\
  stakeSum s = 1000000000000000000 /\
  totalStake s = 900000000000000000 /\
  totalStake s <> stakeSum s /\
  sent s = [ (1%N, 1000000000000000000); (8%N, 110000000000000000);
             (1%N, 500000000000000000) ] /\
  totalStake s0 = stakeSum s0.
Proof.
  cbv zeta. split; [exact reentrant_trace_wf|].
  vm_compute. repeat split; try reflexivity. discriminate.
Qed.

(** After that, 0.9 ether of funding is spread over a [totalStake] of 0.9
    ether and archiver 2, with 1 ether staked, is paid 1.5 ether: 2 ether
    paid in settlements for 1.9 ether funded and three stake changes. *)
Lemma reentrant_withdraw_overpays :
  let s := run_cb 2 reentering_archiver
             (reentrant_trace ++
              [ (call_fundRewardPool, mkMsg 9%N 900000000000000000 90001);
                (call_claimRewards, mkMsg 2%N 0 90002) ])
             (init 100%N 100%N) in
  rewardsPaid (events s) = 2000000000000000000 /\
  funded (events s) = 1900000000000000000 /\
  stakeOps (events s) = 3.
Proof. vm_compute. repeat split; reflexivity. Qed.

(** C3, amended.  As long as no recipient of a transfer calls back into
    the registry, after every sequence of calls from the initial state the
    total paid out by reward settlements is at most the total funded plus
    one wei for every successful [register], [addStake] and [withdrawStake]:
    each of them resets [rewardDebt] rounded down and can hand the archiver
    less than one wei that was not funded. *)
Theorem rewards_paid_bound depth p cs deployer recipient :
  (forall a, p a = []) ->
  wf_trace cs ->
  let s := run_cb depth p cs (init deployer recipient) in
  rewardsPaid (events s) <= funded (events s) + stakeOps (events s).
Proof.
  intros Hp Hwf. cbv zeta. rewrite (run_cb_no_code _ _ _ _ Hp).
  now apply run_rewards_paid_bound.
Qed.

Lemma rounding_trace_wf : wf_trace rounding_trace.
Proof.
  unfold rounding_trace. repeat constructor; unfold MAX_UINT256; simpl; lia.
Defined.

Lemma rewards_paid_bound_witness :
  rewardsPaid (events (run_cb 2 (fun _ => []) rounding_trace (init 100%N 100%N))) <=
  funded (events (run_cb 2 (fun _ => []) rounding_trace (init 100%N 100%N)))
  + stakeOps (events (run_cb 2 (fun _ => []) rounding_trace (init 100%N 100%N))).
Proof.
  apply (rewards_paid_bound 2 (fun _ => []) rounding_trace 100%N 100%N).
  - reflexivity.
  - exact rounding_trace_wf.
Defined.

(** * Further properties of the registry, with recipients that call back *)

(** ** Invariants through a callback *)

(** The recipient's code keeps [I]. *)
Definition cb_keeps (I : State -> Prop) (k : Callback) : Prop :=
  forall to s s', I s -> k to s = Ok s' -> I s'.

Lemma inert_keeps I : cb_keeps I inert.
Proof. intros to s s' Hs H. injection H as <-. assumption. Qed.

(** The state in which the recipient's code starts. *)
Definition debited (to : address) (amount : uint256) (s : State) : State :=
  set_sent ((to, amount) :: sent s) (set_balance (balance s - amount) s).

Lemma send_cb_Ok k to amount s s' :
  send_cb k to amount s = Ok s' ->
  amount <= balance s /\ k to (debited to amount s) = Ok s'.
Proof.
  unfold send_cb, debited. destruct (amount <=? balance s) eqn:Hb; [|discriminate].
  apply Z.leb_le in Hb.
  destruct (k to _) as [s1|e] eqn:Hk; [|discriminate].
  intros H. injection H as <-. auto.
Qed.

(** The calls that transfer nothing are those of the plain model. *)
Lemma call_cb_plain k locked c m s s' :
  match c with
  | call_addStake | call_withdrawStake _ | call_claimRewards
  | call_resolveChallenge _ _ | call_resolveExpiredChallenge _ => False
  | _ => True
  end ->
  call_cb k locked c m s = Ok s' -> call c m s = Ok s'.
Proof.
  destruct c; simpl; intros Hc H; try contradiction; try assumption.
  unfold guarded in H. destruct locked; [discriminate | assumption].
Qed.

(** An invariant that every call keeps, whatever the recipients it pays
    do as long as they keep it, holds after every sequence of transactions
    with every [Program] at the recipients. *)
Section Invariant.
Variable Inv : State -> Prop.
Hypothesis call_cb_keeps :
  forall k locked c m s s',
    cb_keeps Inv k -> wf_msg m -> Inv s -> call_cb k locked c m s = Ok s' -> Inv s'.

Lemma reenter_keeps depth p now locked :
  wf_program p -> 0 < now <= MAX_UINT256 ->
  cb_keeps Inv (reenter depth p now locked).
Proof.
  intros Hp Hnow. revert locked. induction depth as [|d IH]; intros locked.
  - apply inert_keeps.
  - intros to s s' Hs H. simpl in H. injection H as <-.
    specialize (Hp to). revert s Hs.
    induction (p to) as [|[c v] cs IHcs]; simpl; intros s Hs.
    + assumption.
    + inversion Hp as [|? ? Hv Hrest]; subst.
      apply IHcs; [assumption|].
      destruct (call_cb (reenter d p now (locked || nonReentrant c)) locked c
                  (mkMsg to v now) s) as [st|e] eqn:Hc; [|assumption].
      eapply call_cb_keeps; [apply IH | | exact Hs | exact Hc].
      split; simpl; assumption.
Qed.

Lemma execute_cb_keeps depth p c m s :
  wf_program p -> wf_msg m -> Inv s -> Inv (execute_cb depth p c m s).
Proof.
  intros Hp Hm Hs. unfold execute_cb.
  destruct (call_cb _ false c m s) as [s'|e] eqn:H; [|assumption].
  eapply call_cb_keeps; [| exact Hm | exact Hs | exact H].
  apply reenter_keeps; [assumption | apply Hm].
Qed.

Lemma run_cb_keeps depth p cs s :
  wf_program p -> wf_trace cs -> Inv s -> Inv (run_cb depth p cs s).
Proof.
  intros Hp. revert s. induction cs as [|[c m] cs IH]; simpl; intros s Hwf Hs.
  - assumption.
  - inversion Hwf as [|? ? [_ Hm] Hrest]; subst.
    apply IH; [assumption|]. now apply execute_cb_keeps.
Qed.
End Invariant.

Lemma guarded_Ok locked r s' : guarded locked r = Ok s' -> r = Ok s'.
Proof. unfold guarded. destruct locked; [discriminate | auto]. Qed.

(** Carries an invariant through the internal calls and the transfers
    of a function: [expl] proves it of a state written out over the last
    intermediate state, [deact] and [claim] are its lemmas for
    [_deactivateArchiver] and [_claimRewards_cb], [Hk] says that the
    recipients keep it. *)
Ltac cb_chain expl deact claim Hk :=
  match goal with
  | Hd : _deactivateArchiver _ _ ?y = Ok ?z |- ?I _ =>
      let Hz := fresh "Hz" in
      cut (I z);
      [ intros Hz; clear Hd; expl
      | eapply deact; [exact Hd|]; clear Hd; cb_chain expl deact claim Hk ]
  | Hc : _claimRewards_cb _ _ _ ?y = Ok ?x |- ?I _ =>
      let Hx := fresh "Hx" in
      cut (I x);
      [ intros Hx; clear Hc; expl
      | eapply claim; [exact Hk | exact Hc |]; clear Hc;
        cb_chain expl deact claim Hk ]
  | Hs : send_cb _ _ _ ?y = Ok ?z |- ?I _ =>
      let Hz := fresh "Hz" in
      cut (I z);
      [ intros Hz; clear Hs; expl
      | apply send_cb_Ok in Hs; destruct Hs as [_ Hs];
        refine (Hk _ _ _ _ Hs); clear Hs; unfold debited;
        cb_chain expl deact claim Hk ]
  | _ => expl
  end.

(** ** Registration and deactivation are permanent *)

(** Reading the record at [a] after writes at another key. *)
Ltac at_key a :=
  simp_state;
  repeat match goal with
  | |- context [<[?k := _]> _ !! a] =>
      let Hk := fresh "Hk" in
      destruct (decide (k = a)) as [Hk|?];
      [ rewrite ?Hk in *; rewrite ?lookup_insert_eq in *
      | rewrite ?lookup_insert_ne in * by assumption ]
  end;
  simp_state.

(** [a] registered at time [r], and is active only if [on]. *)
Definition Kept (a : address) (r : uint256) (on : bool) (s : State) : Prop :=
  registeredAt (archiverOf s a) = r /\
  (active (archiverOf s a) = true -> on = true).

Ltac kept_explicit :=
  idtac;
  match goal with
  | Hz : Kept ?a _ _ _ |- Kept ?a _ _ _ =>
      solve [ revert Hz; unfold Kept; at_key a;
              (intros [? ?]; split; auto; try discriminate; try congruence) ]
  end.

Lemma _deactivateArchiver_Kept a r on k now s s' :
  _deactivateArchiver k now s = Ok s' -> Kept a r on s -> Kept a r on s'.
Proof.
  intros H Hs. apply _deactivateArchiver_Ok in H. destruct H as (aa & ai & ->).
  kept_explicit.
Qed.

Lemma _claimRewards_cb_Kept a r on k who now s s' :
  cb_keeps (Kept a r on) k ->
  _claimRewards_cb k who now s = Ok s' -> Kept a r on s -> Kept a r on s'.
Proof.
  intros Hk H Hs. unfold _claimRewards_cb in H. cbv zeta in H.
  inv_calls; try assumption.
  all: cb_chain kept_explicit _deactivateArchiver_Kept I Hk.
Qed.

Lemma commitOne_Kept a r on h m s s' :
  commitOne h m s = Ok s' -> Kept a r on s -> Kept a r on s'.
Proof.
  unfold commitOne. intros H Hs. cbv zeta in H. inv_calls. kept_explicit.
Qed.

Lemma commitAll_Kept a r on hs m s s' :
  commitAll hs m s = Ok s' -> Kept a r on s -> Kept a r on s'.
Proof.
  revert s. induction hs as [|h hs IH]; simpl; intros s H Hs.
  - now injection H as <-.
  - apply bind_Ok in H. destruct H as (s1 & H1 & H).
    eapply IH; [exact H|]. eapply commitOne_Kept; eassumption.
Qed.

Ltac kept_chain Hk :=
  cb_chain kept_explicit _deactivateArchiver_Kept _claimRewards_cb_Kept Hk.

Lemma call_cb_Kept a r on :
  r <> 0 ->
  forall k locked c m s s',
    cb_keeps (Kept a r on) k -> wf_msg m -> Kept a r on s ->
    call_cb k locked c m s = Ok s' -> Kept a r on s'.
Proof.
  intros Hr k locked c m s s' Hk [_ [Ht _]] Hs H.
  destruct c; simpl in H;
    try (apply nonpayable_Ok in H); try (apply guarded_Ok in H).
  - unfold register in H. cbv zeta in H. inv_calls. kept_chain Hk.
  - unfold addStake_cb in H. cbv zeta in H. inv_calls.
    assert (Hs0 : Kept a r on (credit (msg_value m) s)) by kept_explicit.
    clear Hs. kept_chain Hk.
  - unfold withdrawStake_cb in H. cbv zeta in H. inv_calls; kept_chain Hk.
  - unfold deactivate in H. inv_calls.
    eapply _deactivateArchiver_Kept; eassumption.
  - unfold commitToBlob in H. inv_calls.
    eapply commitOne_Kept; eassumption.
  - unfold batchCommitToBlobs in H. inv_calls.
    eapply commitAll_Kept; eassumption.
  - apply bind_Ok in H. destruct H as (x & Hx & H). injection H as <-.
    unfold createChallenge in Hx. cbv zeta in Hx. inv_calls. kept_chain Hk.
  - unfold resolveChallenge_cb in H. cbv zeta in H. do 3 inv_step H.
    set (s2 := modifyChallenge challengeId (set_archiverWon archiverHasData)
                 (modifyChallenge challengeId (set_resolved true) s)) in *.
    assert (Hs2 : Kept a r on s2) by kept_explicit.
    clearbody s2. clear Hs.
    set (who := archiver (challengeOf s2 challengeId)) in *. clearbody who.
    inv_calls; kept_chain Hk.
  - unfold resolveExpiredChallenge_cb in H. cbv zeta in H. do 3 inv_step H.
    set (s2 := modifyChallenge challengeId (set_archiverWon false)
                 (modifyChallenge challengeId (set_resolved true) s)) in *.
    assert (Hs2 : Kept a r on s2) by kept_explicit.
    clearbody s2. clear Hs.
    set (who := archiver (challengeOf s2 challengeId)) in *. clearbody who.
    inv_calls; kept_chain Hk.
  - unfold fundRewardPool in H. cbv zeta in H. inv_calls; kept_chain Hk.
  - unfold claimRewards_cb in H. eapply _claimRewards_cb_Kept; eassumption.
  - unfold receive, fundRewardPool in H. cbv zeta in H. inv_calls; kept_chain Hk.
  - unfold setFeeRecipient in H. inv_calls. kept_chain Hk.
Qed.

Lemma run_cb_Kept a r on depth p cs s :
  r <> 0 -> wf_program p -> wf_trace cs ->
  Kept a r on s -> Kept a r on (run_cb depth p cs s).
Proof.
  intros Hr. apply run_cb_keeps. now apply call_cb_Kept.
Qed.

(** X2.  Registration happens once: whatever transactions follow, and
    whatever calls the recipients of transfers make back into the registry,
    a registered archiver keeps its registration time, and every further
    [register] from its address reverts. *)
Theorem registration_permanent depth p a cs s :
  wf_program p ->
  wf_trace cs ->
  registeredAt (archiverOf s a) <> 0 ->
  registeredAt (archiverOf (run_cb depth p cs s) a) = registeredAt (archiverOf s a) /\
  (forall ep m, msg_sender m = a ->
     register ep m (run_cb depth p cs s) = Err InsufficientStake \/
     register ep m (run_cb depth p cs s) = Err ArchiverAlreadyRegistered).
Proof.
  intros Hp Hwf Hreg.
  destruct (run_cb_Kept a (registeredAt (archiverOf s a)) true depth p cs s
              Hreg Hp Hwf) as [Hr _]; [split; auto|].
  split; [assumption|]. intros ep m <-. unfold register. cbv zeta.
  destruct (msg_value m <? MIN_STAKE); [now left | right].
  change (archiverOf (credit (msg_value m) (run_cb depth p cs s)) (msg_sender m))
    with (archiverOf (run_cb depth p cs s) (msg_sender m)).
  rewrite Hr. apply Z.eqb_neq in Hreg. now rewrite Hreg.
Qed.

Lemma registration_permanent_witness :
  registeredAt
    (archiverOf (run_cb 2 reentering_archiver
                   [ (call_addStake, mkMsg 1%N 100000000000000000 4) ]
                   slashed_archiver) 1%N)
  = registeredAt (archiverOf slashed_archiver 1%N).
Proof.
  apply (registration_permanent 2 reentering_archiver 1%N
           [ (call_addStake, mkMsg 1%N 100000000000000000 4) ] slashed_archiver).
  - exact reentering_archiver_wf.
  - repeat constructor; unfold MAX_UINT256; simpl; lia.
  - vm_compute. discriminate.
Defined.

(** X3.  Deactivation is permanent: no sequence of transactions, with
    whatever calls the recipients of transfers make back into the registry,
    makes a registered, inactive archiver active again, so its commits, its
    [deactivate] and the challenges against it revert with
    [ArchiverNotActive] ever after. *)
Theorem deactivation_permanent depth p a cs s :
  wf_program p ->
  wf_trace cs ->
  registeredAt (archiverOf s a) <> 0 ->
  active (archiverOf s a) = false ->
  active (archiverOf (run_cb depth p cs s) a) = false /\
  (forall h m, msg_sender m = a ->
     commitToBlob h m (run_cb depth p cs s) = Err ArchiverNotActive) /\
  (forall hs m, msg_sender m = a ->
     batchCommitToBlobs hs m (run_cb depth p cs s) = Err ArchiverNotActive) /\
  (forall h m, msg_value m = CHALLENGE_BOND ->
     createChallenge a h m (run_cb depth p cs s) = Err ArchiverNotActive) /\
  (forall m, msg_sender m = a ->
     deactivate m (run_cb depth p cs s) = Err ArchiverNotActive).
Proof.
  intros Hp Hwf Hreg Hact.
  destruct (run_cb_Kept a (registeredAt (archiverOf s a)) false depth p cs s
              Hreg Hp Hwf) as [_ Ha]; [split; [reflexivity | congruence]|].
  assert (Hoff : active (archiverOf (run_cb depth p cs s) a) = false).
  { destruct (active (archiverOf (run_cb depth p cs s) a)); [|reflexivity].
    symmetry. now apply Ha. }
  split; [assumption|]. repeat split.
  - intros h m <-. unfold commitToBlob. now rewrite Hoff.
  - intros hs m <-. unfold batchCommitToBlobs. now rewrite Hoff.
  - intros h m Hv. unfold createChallenge. cbv zeta.
    rewrite Hv, Z.eqb_refl. cbn [negb].
    change (archiverOf (credit CHALLENGE_BOND (run_cb depth p cs s)) a)
      with (archiverOf (run_cb depth p cs s) a).
    now rewrite Hoff.
  - intros m <-. unfold deactivate. now rewrite Hoff.
Qed.

Lemma deactivation_permanent_witness :
  active (archiverOf
            (run_cb 2 reentering_archiver
               [ (call_addStake, mkMsg 1%N 100000000000000000 4);
                 (call_fundRewardPool, mkMsg 9%N 1000 5) ] slashed_archiver)
            1%N) = false.
Proof.
  apply (deactivation_permanent 2 reentering_archiver 1%N
           [ (call_addStake, mkMsg 1%N 100000000000000000 4);
             (call_fundRewardPool, mkMsg 9%N 1000 5) ] slashed_archiver).
  - exact reentering_archiver_wf.
  - repeat constructor; unfold MAX_UINT256; simpl; lia.
  - vm_compute. discriminate.
  - vm_compute. reflexivity.
Defined.

(** ** The active set and its index *)

(** [idx] is the 1-based position map of [l]: an address sits at position
    [i] of the array exactly when its index is [i + 1]; 0 means absent. *)
Definition consistent (l : list N) (idx : gmap N Z) : Prop :=
  (forall b, 0 <= default 0 (idx !! b)) /\
  (forall b (i : nat), l !! i = Some b <-> default 0 (idx !! b) = Z.of_nat i + 1).

Lemma consistent_empty : consistent [] ∅.
Proof.
  split.
  - intros b. rewrite lookup_empty. simpl. lia.
  - intros b i. rewrite lookup_empty. simpl. split; [discriminate | lia].
Qed.

Lemma consistent_NoDup l idx : consistent l idx -> NoDup l.
Proof.
  intros [_ H]. apply NoDup_alt. intros i j x Hi Hj.
  apply H in Hi, Hj. lia.
Qed.

Lemma consistent_elem l idx b :
  consistent l idx -> (b ∈ l <-> 0 < default 0 (idx !! b)).
Proof.
  intros [Hpos H]. rewrite list_elem_of_lookup. split.
  - intros [i Hi]. apply H in Hi. lia.
  - intros Hb. exists (Z.to_nat (default 0 (idx !! b) - 1)).
    apply H. lia.
Qed.

Lemma consistent_length l idx b :
  consistent l idx -> default 0 (idx !! b) <= Z.of_nat (length l).
Proof.
  intros [Hpos H].
  destruct (Z.le_gt_cases (default 0 (idx !! b)) 0) as [|Hgt]; [lia|].
  assert (Hl : l !! Z.to_nat (default 0 (idx !! b) - 1) = Some b) by (apply H; lia).
  apply lookup_lt_Some in Hl. lia.
Qed.

(** push, then [archiverIndex[a] = length]. *)
Lemma consistent_push l idx a :
  consistent l idx -> default 0 (idx !! a) = 0 ->
  consistent (l ++ [a]) (<[a := Z.of_nat (length (l ++ [a]))]> idx).
Proof.
  intros [Hpos H] Ha. rewrite length_app. simpl. split.
  - intros b. destruct (decide (a = b)) as [->|Hne].
    + rewrite lookup_insert_eq. simpl. lia.
    + rewrite lookup_insert_ne by assumption. apply Hpos.
  - intros b i. destruct (decide (a = b)) as [->|Hne].
    + rewrite lookup_insert_eq. simpl.
      rewrite lookup_app_Some. simpl. split.
      * intros [Hl | [Hge Hl]].
        -- apply H in Hl. lia.
        -- destruct (i - length l)%nat eqn:Hd; [lia | discriminate].
      * intros Hi. right. split; [lia|].
        replace (i - length l)%nat with 0%nat by lia. reflexivity.
    + rewrite lookup_insert_ne by assumption.
      rewrite lookup_app_Some, <- H. split.
      * intros [Hl | [Hge Hl]]; [assumption|].
        destruct (i - length l)%nat; simpl in Hl; [congruence | discriminate].
      * auto.
Qed.

(** swap with the last element, pop, clear the index. *)
Lemma consistent_swap_pop l idx a b :
  consistent l idx ->
  0 < default 0 (idx !! a) < Z.of_nat (length l) ->
  l !! Z.to_nat (Z.of_nat (length l) - 1) = Some b ->
  consistent
    (removelast (<[Z.to_nat (default 0 (idx !! a) - 1) := b]> l))
    (<[a := 0]> (<[b := default 0 (idx !! a)]> idx)).
Proof.
  intros [Hpos H] Hi Hlast.
  set (i := default 0 (idx !! a)) in *.
  set (n := length l) in *.
  assert (Hib : default 0 (idx !! b) = Z.of_nat n) by (apply H in Hlast; lia).
  assert (Hab : a <> b) by (intros ->; fold i in Hib; lia).
  rewrite removelast_firstn_len, length_insert. fold n.
  split.
  - intros c. destruct (decide (a = c)) as [->|Hac].
    + rewrite lookup_insert_eq. simpl. lia.
    + rewrite lookup_insert_ne by assumption.
      destruct (decide (b = c)) as [->|Hbc].
      * rewrite lookup_insert_eq. simpl. lia.
      * rewrite lookup_insert_ne by assumption. apply Hpos.
  - intros c j. rewrite lookup_take_Some, list_lookup_insert_Some.
    destruct (decide (a = c)) as [->|Hac].
    + rewrite lookup_insert_eq. simpl. split; [|lia].
      intros [[(Hj & Hbc & _) | (Hj & Hl)] Hlt]; [congruence|].
      apply H in Hl. fold i in Hl. lia.
    + rewrite lookup_insert_ne by assumption.
      destruct (decide (b = c)) as [->|Hbc].
      * rewrite lookup_insert_eq. simpl. split.
        -- intros [[(Hj & _ & _) | (Hj & Hl)] Hlt]; [lia|].
           apply H in Hl. lia.
        -- intros Hj. split; [|lia]. left. repeat split; lia.
      * rewrite lookup_insert_ne by assumption. rewrite <- H. split.
        -- intros [[(Hj & Hbc' & _) | (Hj & Hl)] Hlt]; [congruence | assumption].
        -- intros Hl. pose proof Hl as Hl'. apply H in Hl'.
           pose proof (lookup_lt_Some _ _ _ Hl) as Hjn. fold n in Hjn.
           assert (Hjn' : j <> (n - 1)%nat).
           { intros ->. replace (Z.to_nat (Z.of_nat n - 1)) with (n - 1)%nat in Hlast by lia.
             congruence. }
           split; [|lia]. right. split; [|assumption].
           intros Hij. assert (Hla : l !! j = Some a) by (apply H; fold i; lia).
           congruence.
Qed.

(** the element is the last one: pop, clear the index. *)
Lemma consistent_pop l idx a :
  consistent l idx ->
  default 0 (idx !! a) = Z.of_nat (length l) ->
  0 < default 0 (idx !! a) ->
  consistent (removelast l) (<[a := 0]> idx).
Proof.
  intros [Hpos H] Hi Hgt.
  rewrite removelast_firstn_len. split.
  - intros c. destruct (decide (a = c)) as [->|Hac].
    + rewrite lookup_insert_eq. simpl. lia.
    + rewrite lookup_insert_ne by assumption. apply Hpos.
  - intros c j. rewrite lookup_take_Some.
    destruct (decide (a = c)) as [->|Hac].
    + rewrite lookup_insert_eq. simpl. split; [|lia].
      intros [Hl Hlt]. apply H in Hl. lia.
    + rewrite lookup_insert_ne by assumption. rewrite <- H. split.
      * intros [Hl _]. assumption.
      * intros Hl. split; [assumption|].
        pose proof (lookup_lt_Some _ _ _ Hl) as Hjn.
        assert (j <> (length l - 1)%nat); [|lia].
        intros ->. assert (Hla : l !! (length l - 1)%nat = Some a) by (apply H; lia).
        congruence.
Qed.

Lemma pop_nonempty s :
  activeArchivers s <> [] ->
  pop s = Ok (set_activeArchivers (removelast (activeArchivers s)) s).
Proof. unfold pop. destruct (activeArchivers s); [congruence | reflexivity]. Qed.

(** With a consistent index, [_deactivateArchiver] cannot revert: it
    clears the flag and the index of [a], keeps the index consistent and
    keeps every other address in or out of the array as it was. *)
Lemma _deactivateArchiver_consistent a now s :
  consistent (activeArchivers s) (archiverIndex s) ->
  exists s',
    _deactivateArchiver a now s = Ok s' /\
    consistent (activeArchivers s') (archiverIndex s') /\
    archiverIndexOf s' a = 0 /\
    (forall b, b <> a -> (0 < archiverIndexOf s' b <-> 0 < archiverIndexOf s b)) /\
    archivers s' = <[a := set_active false (archiverOf s a)]> (archivers s).
Proof.
  intros Hc. pose proof Hc as [Hpos H].
  unfold _deactivateArchiver. cbv zeta.
  change (archiverIndexOf (modifyArchiver a (set_active false) s) a)
    with (default 0 (archiverIndex s !! a)).
  change (activeArchivers (modifyArchiver a (set_active false) s))
    with (activeArchivers s).
  set (i := default 0 (archiverIndex s !! a)) in *.
  set (l := activeArchivers s) in *.
  destruct (0 <? i) eqn:Hi; bools.
  - pose proof (consistent_length l _ a Hc) as Hle. fold i in Hle.
    destruct (i <? Z.of_nat (length l)) eqn:Hlt; bools.
    + destruct (lookup_lt_is_Some_2 l (Z.to_nat (Z.of_nat (length l) - 1)))
        as [b Hb]; [lia|].
      rewrite Hb. cbn [bind]. rewrite pop_nonempty.
      2:{ sproj. intros Hnil. apply (f_equal length) in Hnil.
          rewrite length_insert in Hnil. simpl in Hnil. lia. }
      cbn [bind]. eexists. split; [reflexivity|]. sproj.
      pose proof (consistent_swap_pop l _ a b Hc ltac:(fold i; lia) Hb) as Hc'.
      fold i in Hc'. split; [exact Hc'|]. unfold archiverIndexOf. sproj.
      split; [now rewrite lookup_insert_eq|]. split; [|reflexivity].
      intros c Hca. rewrite lookup_insert_ne by congruence.
      destruct (decide (b = c)) as [->|Hbc].
      * rewrite lookup_insert_eq. simpl.
        assert (default 0 (archiverIndex s !! c) = Z.of_nat (length l))
          by (apply H in Hb; lia).
        lia.
      * now rewrite lookup_insert_ne.
    + cbn [bind]. rewrite pop_nonempty.
      2:{ sproj. fold l. intros Hnil. rewrite Hnil in Hle. simpl in Hle. lia. }
      cbn [bind]. eexists. split; [reflexivity|]. sproj. fold l.
      split; [apply consistent_pop; [assumption | fold i; lia | fold i; lia]|].
      unfold archiverIndexOf. sproj.
      split; [now rewrite lookup_insert_eq|]. split; [|reflexivity].
      intros c Hca. now rewrite lookup_insert_ne by congruence.
  - cbn [bind]. eexists. split; [reflexivity|]. sproj. fold l.
    split; [assumption|]. unfold archiverIndexOf. sproj. fold i.
    split; [specialize (Hpos a); fold i in Hpos; lia|].
    split; [tauto | reflexivity].
Qed.

(** The array, its index and the [active] flags agree, and only
    registered archivers are active. *)
Definition Inv_active (s : State) : Prop :=
  consistent (activeArchivers s) (archiverIndex s) /\
  (forall a, active (archiverOf s a) = true <-> 0 < archiverIndexOf s a) /\
  (forall a, active (archiverOf s a) = true -> registeredAt (archiverOf s a) <> 0).

Lemma Inv_active_init deployer recipient : Inv_active (init deployer recipient).
Proof.
  split; [apply consistent_empty|]. unfold archiverOf, archiverIndexOf, init. simpl.
  split; intros a; rewrite ?lookup_empty; simpl; [split|]; intros; [discriminate|lia|discriminate].
Qed.

(** A step that leaves the array, the index, the flags and the
    registration times alone. *)
Lemma Inv_active_same s s' :
  Inv_active s ->
  activeArchivers s' = activeArchivers s ->
  archiverIndex s' = archiverIndex s ->
  (forall a, active (archiverOf s' a) = active (archiverOf s a) /\
             registeredAt (archiverOf s' a) = registeredAt (archiverOf s a)) ->
  Inv_active s'.
Proof.
  intros (Hc & Hact & Hreg) Hl Hi Hrec. unfold Inv_active, archiverIndexOf.
  rewrite Hl, Hi. split; [assumption|].
  split; intros a; destruct (Hrec a) as [Ha Hr]; rewrite ?Ha, ?Hr.
  - apply Hact.
  - apply Hreg.
Qed.

Lemma _deactivateArchiver_Inv_active k now s s' :
  _deactivateArchiver k now s = Ok s' -> Inv_active s -> Inv_active s'.
Proof.
  intros H (Hc & Hact & Hreg).
  destruct (_deactivateArchiver_consistent k now s Hc)
    as (s1 & H1 & Hc' & Hk & Hoth & Har).
  rewrite H in H1. injection H1 as <-.
  split; [assumption|]. unfold archiverOf. rewrite Har. split; intros a.
  - destruct (decide (k = a)) as [->|Hne].
    + rewrite lookup_insert_eq. simpl. rewrite Hk. split; [discriminate | lia].
    + rewrite lookup_insert_ne by assumption. rewrite Hoth by congruence. apply Hact.
  - destruct (decide (k = a)) as [->|Hne].
    + rewrite lookup_insert_eq. simpl. discriminate.
    + rewrite lookup_insert_ne by assumption. apply Hreg.
Qed.

Ltac active_explicit :=
  idtac;
  match goal with
  | Hs : Inv_active ?s |- Inv_active _ =>
      solve [ apply (Inv_active_same s);
              [ exact Hs | reflexivity | reflexivity
              | let a := fresh "a" in intros a; at_key a; auto ] ]
  end.

Lemma _claimRewards_cb_Inv_active k who now s s' :
  cb_keeps Inv_active k ->
  _claimRewards_cb k who now s = Ok s' -> Inv_active s -> Inv_active s'.
Proof.
  intros Hk H Hs. unfold _claimRewards_cb in H. cbv zeta in H.
  inv_calls; try assumption.
  all: cb_chain active_explicit _deactivateArchiver_Inv_active I Hk.
Qed.

Ltac active_chain Hk :=
  cb_chain active_explicit _deactivateArchiver_Inv_active
    _claimRewards_cb_Inv_active Hk.

Lemma register_Inv_active ep m s s' :
  register ep m s = Ok s' -> wf_msg m -> Inv_active s -> Inv_active s'.
Proof.
  unfold register. intros H [_ [Ht _]] (Hc & Hact & Hreg). cbv zeta in H. inv_calls.
  assert (Hidx : default 0 (archiverIndex s !! msg_sender m) = 0).
  { destruct Hc as [Hpos _]. specialize (Hpos (msg_sender m)).
    destruct (Z.eq_dec (default 0 (archiverIndex s !! msg_sender m)) 0); [assumption|].
    assert (Ha : active (archiverOf s (msg_sender m)) = true)
      by (apply Hact; unfold archiverIndexOf; lia).
    apply Hreg in Ha. unfold archiverOf in Ha. simp_state. contradiction. }
  split; [|split].
  - sproj. now apply consistent_push.
  - intros a. unfold archiverOf, archiverIndexOf. sproj.
    destruct (decide (msg_sender m = a)) as [<-|Hne].
    + rewrite !lookup_insert_eq. simpl. rewrite length_app. simpl. split; [lia | reflexivity].
    + rewrite !lookup_insert_ne by assumption. apply Hact.
  - intros a. unfold archiverOf. sproj.
    destruct (decide (msg_sender m = a)) as [<-|Hne].
    + rewrite !lookup_insert_eq. simpl. lia.
    + rewrite !lookup_insert_ne by assumption. apply Hreg.
Qed.

Lemma commitOne_Inv_active h m s s' :
  commitOne h m s = Ok s' -> Inv_active s -> Inv_active s'.
Proof.
  unfold commitOne. intros H Hs. cbv zeta in H. inv_calls. active_explicit.
Qed.

Lemma commitAll_Inv_active hs m s s' :
  commitAll hs m s = Ok s' -> Inv_active s -> Inv_active s'.
Proof.
  revert s. induction hs as [|h hs IH]; simpl; intros s H Hs.
  - now injection H as <-.
  - apply bind_Ok in H. destruct H as (s1 & H1 & H).
    eapply IH; [exact H|]. eapply commitOne_Inv_active; eassumption.
Qed.

Lemma call_cb_Inv_active k locked c m s s' :
  cb_keeps Inv_active k -> wf_msg m -> Inv_active s ->
  call_cb k locked c m s = Ok s' -> Inv_active s'.
Proof.
  intros Hk Hm Hs H.
  destruct c; simpl in H;
    try (apply nonpayable_Ok in H); try (apply guarded_Ok in H).
  - eapply register_Inv_active; eassumption.
  - unfold addStake_cb in H. cbv zeta in H. inv_calls.
    assert (Hs0 : Inv_active (credit (msg_value m) s)) by active_explicit.
    clear Hs. active_chain Hk.
  - unfold withdrawStake_cb in H. cbv zeta in H. inv_calls; active_chain Hk.
  - unfold deactivate in H. inv_calls.
    eapply _deactivateArchiver_Inv_active; eassumption.
  - unfold commitToBlob in H. inv_calls.
    eapply commitOne_Inv_active; eassumption.
  - unfold batchCommitToBlobs in H. inv_calls.
    eapply commitAll_Inv_active; eassumption.
  - apply bind_Ok in H. destruct H as (x & Hx & H). injection H as <-.
    unfold createChallenge in Hx. cbv zeta in Hx. inv_calls. active_chain Hk.
  - unfold resolveChallenge_cb in H. cbv zeta in H. do 3 inv_step H.
    set (s2 := modifyChallenge challengeId (set_archiverWon archiverHasData)
                 (modifyChallenge challengeId (set_resolved true) s)) in *.
    assert (Hs2 : Inv_active s2) by active_explicit.
    clearbody s2. clear Hs.
    set (who := archiver (challengeOf s2 challengeId)) in *. clearbody who.
    inv_calls; active_chain Hk.
  - unfold resolveExpiredChallenge_cb in H. cbv zeta in H. do 3 inv_step H.
    set (s2 := modifyChallenge challengeId (set_archiverWon false)
                 (modifyChallenge challengeId (set_resolved true) s)) in *.
    assert (Hs2 : Inv_active s2) by active_explicit.
    clearbody s2. clear Hs.
    set (who := archiver (challengeOf s2 challengeId)) in *. clearbody who.
    inv_calls; active_chain Hk.
  - unfold fundRewardPool in H. cbv zeta in H. inv_calls; active_chain Hk.
  - unfold claimRewards_cb in H. eapply _claimRewards_cb_Inv_active; eassumption.
  - unfold receive in H. cbv zeta in H. inv_calls; active_chain Hk.
  - unfold setFeeRecipient in H. inv_calls. active_chain Hk.
Qed.

Lemma run_cb_Inv_active depth p cs deployer recipient :
  wf_program p -> wf_trace cs ->
  Inv_active (run_cb depth p cs (init deployer recipient)).
Proof.
  intros Hp Hwf.
  apply run_cb_keeps; [exact call_cb_Inv_active | assumption | assumption |].
  apply Inv_active_init.
Qed.

(** X4.  After every sequence of transactions, with whatever calls the
    recipients of transfers make back into the registry, the array of active
    archivers has no duplicates, an address sits at position [i] exactly
    when its index is [i + 1], and the addresses in the array are exactly
    those whose record is flagged [active]. *)
Theorem active_set_consistent depth p cs deployer recipient :
  wf_program p ->
  wf_trace cs ->
  let s := run_cb depth p cs (init deployer recipient) in
  NoDup (getActiveArchivers s) /\
  (forall a (i : nat),
     activeArchivers s !! i = Some a <-> archiverIndexOf s a = Z.of_nat i + 1) /\
  (forall a, a ∈ getActiveArchivers s <-> active (archiverOf s a) = true).
Proof.
  intros Hp Hwf s.
  destruct (run_cb_Inv_active depth p cs deployer recipient Hp Hwf)
    as (Hc & Hact & _).
  fold s in Hc, Hact.
  split; [eapply consistent_NoDup; eassumption|].
  split; [apply Hc|].
  intros a. unfold getActiveArchivers.
  rewrite (consistent_elem _ _ a Hc). symmetry. apply Hact.
Qed.

Lemma active_set_consistent_witness :
  NoDup (getActiveArchivers
           (run_cb 2 reentering_archiver reentrant_trace (init 100%N 100%N))).
Proof.
  apply (active_set_consistent 2 reentering_archiver reentrant_trace 100%N 100%N).
  - exact reentering_archiver_wf.
  - exact reentrant_trace_wf.
Defined.

(** X5.  In every state the registry gets into from deployment, with
    whatever calls the recipients of transfers make back, [deactivate] by an
    active archiver cannot revert: it clears the flag, takes the archiver,
    and nobody else, out of the array of active archivers, and leaves its
    stake and [totalStake] untouched. *)
Theorem deactivate_removes depth p cs deployer recipient m :
  wf_program p ->
  wf_trace cs ->
  let s := run_cb depth p cs (init deployer recipient) in
  active (archiverOf s (msg_sender m)) = true ->
  exists s',
    deactivate m s = Ok s' /\
    active (archiverOf s' (msg_sender m)) = false /\
    (forall b, b ∈ getActiveArchivers s' <->
               b ∈ getActiveArchivers s /\ b <> msg_sender m) /\
    length (getActiveArchivers s') = (length (getActiveArchivers s) - 1)%nat /\
    stake (archiverOf s' (msg_sender m)) = stake (archiverOf s (msg_sender m)) /\
    totalStake s' = totalStake s.
Proof.
  intros Hp Hwf s Ha.
  destruct (run_cb_Inv_active depth p cs deployer recipient Hp Hwf)
    as (Hc & Hact & _).
  fold s in Hc, Hact. clearbody s.
  destruct (_deactivateArchiver_consistent (msg_sender m) (block_timestamp m) s Hc)
    as (s' & H & Hc' & Hk & Hoth & Har).
  exists s'. unfold deactivate. rewrite Ha. cbn [negb].
  split; [assumption|].
  assert (Hlen : length (activeArchivers s') = (length (activeArchivers s) - 1)%nat /\
                 totalStake s' = totalStake s).
  { clear Hc' Hk Hoth Har.
    unfold _deactivateArchiver in H. cbv zeta in H.
    apply Hact in Ha. unfold archiverIndexOf in Ha.
    change (archiverIndexOf (modifyArchiver (msg_sender m) (set_active false) s)
              (msg_sender m))
      with (default 0 (archiverIndex s !! msg_sender m)) in H.
    apply Z.ltb_lt in Ha. rewrite Ha in H.
    inv_results; sproj;
      rewrite removelast_firstn_len, ?length_insert, length_take, ?length_insert;
      split; (lia || reflexivity). }
  destruct Hlen as [Hlen Htot].
  unfold getActiveArchivers, archiverOf. rewrite Har, lookup_insert_eq. simpl.
  split; [reflexivity|]. split; [|split; [assumption | split; [reflexivity | assumption]]].
  intros b. split.
  - intros Hb. apply (consistent_elem _ _ b Hc') in Hb.
    assert (Hne : b <> msg_sender m).
    { intros ->. unfold archiverIndexOf in Hk. lia. }
    split; [|assumption].
    apply (consistent_elem _ _ b Hc). now apply (Hoth b Hne).
  - intros [Hb Hne]. apply (consistent_elem _ _ b Hc').
    apply (Hoth b Hne). now apply (consistent_elem _ _ b Hc).
Qed.

Lemma deactivate_removes_witness :
  exists s',
    deactivate (mkMsg 2%N 0 90001)
      (run_cb 2 reentering_archiver reentrant_trace (init 100%N 100%N)) = Ok s' /\
    active (archiverOf s' 2%N) = false.
Proof.
  destruct (deactivate_removes 2 reentering_archiver reentrant_trace 100%N 100%N
              (mkMsg 2%N 0 90001) reentering_archiver_wf reentrant_trace_wf
              ltac:(vm_compute; reflexivity))
    as (s' & H & Ha & _).
  exists s'. split; assumption.
Defined.

(** ** The reward pool counter *)

Definition Inv_pool (s : State) : Prop := rewardPool s = funded (events s).

Ltac pool_explicit :=
  idtac;
  match goal with
  | Hs : Inv_pool ?s |- Inv_pool _ =>
      solve [ revert Hs; unfold Inv_pool; sproj; cbn [funded]; intros Hs;
              first [exact Hs | lia] ]
  end.

Lemma _deactivateArchiver_Inv_pool k now s s' :
  _deactivateArchiver k now s = Ok s' -> Inv_pool s -> Inv_pool s'.
Proof.
  intros H Hs. apply _deactivateArchiver_Ok in H. destruct H as (aa & ai & ->).
  exact Hs.
Qed.

Lemma _claimRewards_cb_Inv_pool k who now s s' :
  cb_keeps Inv_pool k ->
  _claimRewards_cb k who now s = Ok s' -> Inv_pool s -> Inv_pool s'.
Proof.
  intros Hk H Hs. unfold _claimRewards_cb in H. cbv zeta in H.
  inv_calls; try assumption.
  all: cb_chain pool_explicit _deactivateArchiver_Inv_pool I Hk.
Qed.

Ltac pool_chain Hk :=
  cb_chain pool_explicit _deactivateArchiver_Inv_pool _claimRewards_cb_Inv_pool Hk.

Lemma commitAll_Inv_pool hs m s s' :
  commitAll hs m s = Ok s' -> Inv_pool s -> Inv_pool s'.
Proof.
  revert s. induction hs as [|h hs IH]; simpl; intros s H Hs.
  - now injection H as <-.
  - apply bind_Ok in H. destruct H as (s1 & H1 & H).
    eapply IH; [exact H|].
    unfold commitOne in H1. cbv zeta in H1. inv_calls. pool_explicit.
Qed.

Lemma call_cb_Inv_pool k locked c m s s' :
  cb_keeps Inv_pool k -> wf_msg m -> Inv_pool s ->
  call_cb k locked c m s = Ok s' -> Inv_pool s'.
Proof.
  intros Hk _ Hs H.
  destruct c; simpl in H;
    try (apply nonpayable_Ok in H); try (apply guarded_Ok in H).
  - unfold register in H. cbv zeta in H. inv_calls. pool_chain Hk.
  - unfold addStake_cb in H. cbv zeta in H. inv_calls.
    assert (Hs0 : Inv_pool (credit (msg_value m) s)) by pool_explicit.
    clear Hs. pool_chain Hk.
  - unfold withdrawStake_cb in H. cbv zeta in H. inv_calls; pool_chain Hk.
  - unfold deactivate in H. inv_calls.
    eapply _deactivateArchiver_Inv_pool; eassumption.
  - unfold commitToBlob, commitOne in H. cbv zeta in H. inv_calls. pool_chain Hk.
  - unfold batchCommitToBlobs in H. inv_calls.
    eapply commitAll_Inv_pool; eassumption.
  - apply bind_Ok in H. destruct H as (x & Hx & H). injection H as <-.
    unfold createChallenge in Hx. cbv zeta in Hx. inv_calls. pool_chain Hk.
  - unfold resolveChallenge_cb in H. cbv zeta in H. do 3 inv_step H.
    set (s2 := modifyChallenge challengeId (set_archiverWon archiverHasData)
                 (modifyChallenge challengeId (set_resolved true) s)) in *.
    assert (Hs2 : Inv_pool s2) by exact Hs.
    clearbody s2. clear Hs.
    set (who := archiver (challengeOf s2 challengeId)) in *. clearbody who.
    inv_calls; pool_chain Hk.
  - unfold resolveExpiredChallenge_cb in H. cbv zeta in H. do 3 inv_step H.
    set (s2 := modifyChallenge challengeId (set_archiverWon false)
                 (modifyChallenge challengeId (set_resolved true) s)) in *.
    assert (Hs2 : Inv_pool s2) by exact Hs.
    clearbody s2. clear Hs.
    set (who := archiver (challengeOf s2 challengeId)) in *. clearbody who.
    inv_calls; pool_chain Hk.
  - unfold fundRewardPool in H. cbv zeta in H. inv_calls; pool_chain Hk.
  - unfold claimRewards_cb in H. eapply _claimRewards_cb_Inv_pool; eassumption.
  - unfold receive in H. cbv zeta in H. inv_calls; pool_chain Hk.
  - unfold setFeeRecipient in H. inv_calls. pool_chain Hk.
Qed.

(** X9.  [rewardPool] is a running total of funding, not of what is left
    to claim: after every sequence of transactions, with whatever calls the
    recipients of transfers make back into the registry, it equals the sum
    of all amounts funded, however much has been paid out in settlements. *)
Theorem rewardPool_counts_funding depth p cs deployer recipient :
  wf_program p ->
  wf_trace cs ->
  let s := run_cb depth p cs (init deployer recipient) in
  rewardPool s = funded (events s).
Proof.
  intros Hp Hwf. cbv zeta.
  apply (run_cb_keeps Inv_pool call_cb_Inv_pool);
    [assumption | assumption | reflexivity].
Qed.

Lemma rewardPool_counts_funding_witness :
  rewardPool (run_cb 2 reentering_archiver reentrant_trace (init 100%N 100%N)) =
  funded (events (run_cb 2 reentering_archiver reentrant_trace (init 100%N 100%N))).
Proof.
  apply (rewardPool_counts_funding 2 reentering_archiver reentrant_trace 100%N 100%N).
  - exact reentering_archiver_wf.
  - exact reentrant_trace_wf.
Defined.

(** ** Conservation of stake without callbacks *)

(** X10.  As long as no recipient of a transfer calls back into the
    registry, [totalStake] equals the sum of the stakes of all archiver
    records after every sequence of transactions. *)
Theorem totalStake_conserved_without_callbacks depth p cs deployer recipient :
  (forall a, p a = []) ->
  wf_trace cs ->
  let s := run_cb depth p cs (init deployer recipient) in
  totalStake s = stakeSum s.
Proof.
  intros Hp Hwf. cbv zeta. rewrite (run_cb_no_code _ _ _ _ Hp).
  now apply run_totalStake.
Qed.

Lemma totalStake_conserved_without_callbacks_witness :
  totalStake (run_cb 2 (fun _ => []) reentrant_trace (init 100%N 100%N)) =
  stakeSum (run_cb 2 (fun _ => []) reentrant_trace (init 100%N 100%N)).
Proof.
  apply (totalStake_conserved_without_callbacks 2 (fun _ => []) reentrant_trace
           100%N 100%N).
  - reflexivity.
  - exact reentrant_trace_wf.
Defined.

(** ** Commitments *)

Lemma commitOne_effects h m s s' :
  commitOne h m s = Ok s' ->
  blobCount (archiverOf s' (msg_sender m)) =
    blobCount (archiverOf s (msg_sender m)) + 1 /\
  active (archiverOf s' (msg_sender m)) = active (archiverOf s (msg_sender m)) /\
  (forall h', blobArchiversOf s' h' =
              if decide (h = h') then blobArchiversOf s h' ++ [msg_sender m]
              else blobArchiversOf s h').
Proof.
  unfold commitOne. intros H. cbv zeta in H. inv_calls.
  unfold blobArchiversOf. simp_state. repeat split.
  intros h'. destruct (decide (h = h')) as [->|Hne].
  - now rewrite lookup_insert_eq.
  - now rewrite lookup_insert_ne.
Qed.

(** One [commitToBlob] per hash, in order. *)
Fixpoint commitEach (hs : list N) (m : Msg) (s : State) : result State :=
  match hs with
  | [] => Ok s
  | h :: rest => s1 <- commitToBlob h m s ;; commitEach rest m s1
  end.

Lemma commitAll_commitEach hs m s :
  active (archiverOf s (msg_sender m)) = true ->
  commitAll hs m s = commitEach hs m s.
Proof.
  revert s. induction hs as [|h hs IH]; simpl; intros s Ha; [reflexivity|].
  unfold commitToBlob. rewrite Ha. cbn [negb].
  destruct (commitOne h m s) as [s1|e] eqn:H1; [|reflexivity]. cbn [bind].
  apply IH. apply commitOne_effects in H1. destruct H1 as (_ & -> & _). assumption.
Qed.

(** X6.  For an active archiver a batch commit is the same as committing
    to each hash with [commitToBlob], one after the other: the same error or
    the same final state. *)
Theorem batchCommit_as_commits hs m s :
  active (archiverOf s (msg_sender m)) = true ->
  batchCommitToBlobs hs m s = commitEach hs m s.
Proof.
  intros Ha. unfold batchCommitToBlobs. rewrite Ha. cbn [negb].
  now apply commitAll_commitEach.
Qed.

Lemma batchCommit_as_commits_witness :
  batchCommitToBlobs [7%N; 7%N; 8%N] (mkMsg 1%N 0 5) one_archiver =
  commitEach [7%N; 7%N; 8%N] (mkMsg 1%N 0 5) one_archiver.
Proof.
  apply (batchCommit_as_commits [7%N; 7%N; 8%N] (mkMsg 1%N 0 5) one_archiver).
  vm_compute. reflexivity.
Defined.

Lemma commitAll_effects hs m s s' :
  commitAll hs m s = Ok s' ->
  blobCount (archiverOf s' (msg_sender m)) =
    blobCount (archiverOf s (msg_sender m)) + Z.of_nat (length hs) /\
  (forall h, blobArchiversOf s' h =
             blobArchiversOf s h ++
             replicate (count_occ N.eq_dec hs h) (msg_sender m)).
Proof.
  revert s. induction hs as [|h0 hs IH]; simpl; intros s H.
  - injection H as <-. split; [lia|]. intros h. now rewrite app_nil_r.
  - apply bind_Ok in H. destruct H as (s1 & H1 & H).
    apply commitOne_effects in H1. destruct H1 as (Hc1 & _ & Hl1).
    destruct (IH _ H) as (Hc & Hl). split; [lia|].
    intros h. rewrite Hl, Hl1.
    destruct (decide (h0 = h)) as [->|Hne].
    + destruct (N.eq_dec h h); [|congruence]. simpl.
      now rewrite <- app_assoc.
    + destruct (N.eq_dec h0 h); [congruence | reflexivity].
Qed.

(** X7.  Commitments are not deduplicated: a successful batch raises the
    archiver's [blobCount] by the length of the batch and appends the
    archiver to each blob's list once per occurrence of the hash in the
    batch; a batch from an inactive archiver reverts, an empty one included. *)
Theorem batchCommit_effects hs m s :
  (active (archiverOf s (msg_sender m)) = false ->
   batchCommitToBlobs hs m s = Err ArchiverNotActive) /\
  (forall s', batchCommitToBlobs hs m s = Ok s' ->
     blobCount (archiverOf s' (msg_sender m)) =
       blobCount (archiverOf s (msg_sender m)) + Z.of_nat (length hs) /\
     (forall h, getArchiversForBlob h s' =
                getArchiversForBlob h s ++
                replicate (count_occ N.eq_dec hs h) (msg_sender m))).
Proof.
  split.
  - intros Ha. unfold batchCommitToBlobs. now rewrite Ha.
  - intros s' H. unfold batchCommitToBlobs in H. inv_results.
    unfold getArchiversForBlob. now apply commitAll_effects.
Qed.

Lemma batchCommit_effects_witness :
  batchCommitToBlobs [] (mkMsg 2%N 0 5) one_archiver = Err ArchiverNotActive.
Proof.
  apply (batchCommit_effects [] (mkMsg 2%N 0 5) one_archiver). reflexivity.
Defined.

(** ** Funding *)

(** X8.  Funding while nothing is staked strands the value: the call
    succeeds and [rewardPool] grows, but the accumulator does not move and
    nobody's pending rewards change.  A plain transfer of ether to the
    contract ([receive]) behaves exactly as [fundRewardPool]. *)
Theorem funding_without_stake m s :
  totalStake s = 0 ->
  0 <= rewardPool s + msg_value m <= MAX_UINT256 ->
  exists s',
    fundRewardPool m s = Ok s' /\
    receive m s = Ok s' /\
    rewardPool s' = rewardPool s + msg_value m /\
    balance s' = balance s + msg_value m /\
    accRewardPerStake s' = accRewardPerStake s /\
    (forall a, pendingRewards a s' = pendingRewards a s).
Proof.
  intros Ht Hr. unfold receive, fundRewardPool. cbv zeta.
  change (totalStake (credit (msg_value m) s)) with (totalStake s).
  rewrite Ht. change (0 <? 0) with false. cbv iota. cbn [bind]. sproj.
  unfold add. rewrite checked_in by assumption. cbn [bind].
  eexists. repeat split.
Qed.

Lemma funding_without_stake_witness :
  exists s',
    fundRewardPool (mkMsg 9%N 1000 1) (init 100%N 100%N) = Ok s' /\
    accRewardPerStake s' = 0.
Proof.
  destruct (funding_without_stake (mkMsg 9%N 1000 1) (init 100%N 100%N) eq_refl)
    as (s' & H & _ & _ & _ & Hacc & _).
  - unfold MAX_UINT256. simpl. lia.
  - exists s'. split; [exact H | exact Hacc].
Defined.



(** ** Rewards that cannot be settled *)

(** X12.  An archiver whose reward debt exceeds what its stake has
    accumulated is locked: [pendingRewards], [claimRewards], [addStake] and
    [withdrawStake] all revert with [Panic] on the subtraction, before any
    transfer is made.  A slash after a claim leaves an archiver there. *)
Theorem debt_above_accrual_locks k a s :
  stake (archiverOf s a) <> 0 ->
  stake (archiverOf s a) * accRewardPerStake s / SCALE < rewardDebtOf s a ->
  pendingRewards a s = Err Panic /\
  (forall m, msg_sender m = a -> claimRewards_cb k m s = Err Panic) /\
  (forall m, msg_sender m = a -> registeredAt (archiverOf s a) <> 0 ->
     addStake_cb k m s = Err Panic) /\
  (forall amount m, msg_sender m = a -> registeredAt (archiverOf s a) <> 0 ->
     0 <= amount <= stake (archiverOf s a) ->
     stake (archiverOf s a) <= MAX_UINT256 ->
     amount = stake (archiverOf s a) \/ MIN_STAKE <= stake (archiverOf s a) - amount ->
     withdrawStake_cb k amount m s = Err Panic).
Proof.
  intros Hst Hlt.
  assert (Hclaim : forall now, _claimRewards_cb k a now s = Err Panic).
  { intros now. unfold _claimRewards_cb. cbv zeta.
    apply Z.eqb_neq in Hst. rewrite Hst. unfold mul, sub.
    destruct (checked (stake (archiverOf s a) * accRewardPerStake s)) as [x|e] eqn:Hx.
    - apply checked_Ok in Hx. destruct Hx as [-> _]. cbn [bind].
      rewrite checked_out by lia. reflexivity.
    - unfold checked in Hx. destruct (in_range _); [discriminate|].
      injection Hx as <-. reflexivity. }
  split; [|split; [|split]].
  - unfold pendingRewards. apply Z.eqb_neq in Hst. rewrite Hst. unfold mul, sub.
    destruct (checked (stake (archiverOf s a) * accRewardPerStake s)) as [x|e] eqn:Hx.
    + apply checked_Ok in Hx. destruct Hx as [-> _]. cbn [bind].
      apply checked_out. lia.
    + unfold checked in Hx. destruct (in_range _); [discriminate|].
      injection Hx as <-. reflexivity.
  - intros m <-. apply Hclaim.
  - intros m <- Hreg. unfold addStake_cb. cbv zeta.
    change (archiverOf (credit (msg_value m) s) (msg_sender m))
      with (archiverOf s (msg_sender m)).
    apply Z.eqb_neq in Hreg. rewrite Hreg.
    assert (Hc : _claimRewards_cb k (msg_sender m) (block_timestamp m)
                   (credit (msg_value m) s) = Err Panic).
    { rewrite <- (Hclaim (block_timestamp m)). unfold _claimRewards_cb. cbv zeta.
      change (archiverOf (credit (msg_value m) s) (msg_sender m))
        with (archiverOf s (msg_sender m)).
      change (accRewardPerStake (credit (msg_value m) s)) with (accRewardPerStake s).
      change (rewardDebtOf (credit (msg_value m) s) (msg_sender m))
        with (rewardDebtOf s (msg_sender m)).
      apply Z.eqb_neq in Hst. rewrite Hst. unfold mul, sub.
      destruct (checked (stake (archiverOf s (msg_sender m)) * accRewardPerStake s))
        as [x|e] eqn:Hx; [|reflexivity].
      apply checked_Ok in Hx. destruct Hx as [-> _]. cbn [bind].
      rewrite checked_out by lia. reflexivity. }
    now rewrite Hc.
  - intros amount m <- Hreg Ham Hmax Hrest. unfold withdrawStake_cb. cbv zeta.
    apply Z.eqb_neq in Hreg. rewrite Hreg.
    assert (Hge : (stake (archiverOf s (msg_sender m)) <? amount) = false)
      by (apply Z.ltb_ge; lia).
    rewrite Hge. unfold sub at 1. rewrite checked_in by lia. cbn [bind].
    assert (Hmin : (0 <? stake (archiverOf s (msg_sender m)) - amount)
                   && (stake (archiverOf s (msg_sender m)) - amount <? MIN_STAKE) = false).
    { destruct Hrest as [-> | Hrest].
      - rewrite Z.sub_diag. reflexivity.
      - apply andb_false_iff. right. apply Z.ltb_ge. assumption. }
    rewrite Hmin. now rewrite Hclaim.
Qed.

Lemma debt_above_accrual_locks_witness :
  pendingRewards 1%N
    (run [ (call_claimRewards, mkMsg 1%N 0 3);
           (call_createChallenge 1%N 7%N, mkMsg 8%N 10000000000000000 3);
           (call_resolveChallenge 0 false, mkMsg 100%N 0 4) ] funded_archiver)
  = Err Panic.
Proof.
  apply (debt_above_accrual_locks inert 1%N
           (run [ (call_claimRewards, mkMsg 1%N 0 3);
                  (call_createChallenge 1%N 7%N, mkMsg 8%N 10000000000000000 3);
                  (call_resolveChallenge 0 false, mkMsg 100%N 0 4) ] funded_archiver)).
  - vm_compute. discriminate.
  - vm_compute. reflexivity.
Defined.

(** ** Challenges *)

(** X13.  A challenge just opened records the challenger, the archiver,
    the blob and a deadline 24 hours ahead, the registry holds the bond, and
    until that deadline [resolveExpiredChallenge] reverts with
    [ChallengePeriodNotExpired], whoever calls. *)
Theorem challenge_cannot_expire_early k a h m s cid s1 :
  createChallenge a h m s = Ok (cid, s1) ->
  0 <= block_timestamp m ->
  cid = nextChallengeId s /\
  challengeOf s1 cid =
    mkChallenge (msg_sender m) a h (block_timestamp m + CHALLENGE_PERIOD) false false /\
  balance s1 = balance s + CHALLENGE_BOND /\
  (forall m', block_timestamp m' < block_timestamp m + CHALLENGE_PERIOD ->
     resolveExpiredChallenge_cb k cid m' s1 = Err ChallengePeriodNotExpired).
Proof.
  intros H Ht. unfold createChallenge in H. cbv zeta in H.
  inv_results; inv_arith; bools.
  split; [reflexivity|].
  split; [|split].
  - unfold challengeOf. sproj. now rewrite lookup_insert_eq.
  - sproj. congruence.
  - intros m' Hm'. unfold resolveExpiredChallenge_cb. cbv zeta.
    unfold challengeOf. sproj. rewrite lookup_insert_eq. cbn [default from_option Datatypes.id].
    sproj.
    assert (Hd : (block_timestamp m + CHALLENGE_PERIOD =? 0) = false)
      by (apply Z.eqb_neq; unfold CHALLENGE_PERIOD; lia).
    rewrite Hd. apply Z.ltb_lt in Hm'. now rewrite Hm'.
Qed.

Lemma challenge_cannot_expire_early_witness :
  resolveExpiredChallenge_cb inert 0 (mkMsg 8%N 0 86402)
    (opened 1%N 7%N (mkMsg 8%N 10000000000000000 3) funded_archiver)
  = Err ChallengePeriodNotExpired.
Proof.
  apply (challenge_cannot_expire_early inert 1%N 7%N
           (mkMsg 8%N 10000000000000000 3) funded_archiver 0
           (opened 1%N 7%N (mkMsg 8%N 10000000000000000 3) funded_archiver)).
  - vm_compute. reflexivity.
  - simpl. lia.
  - simpl. unfold CHALLENGE_PERIOD. lia.
Defined.

(** X14.  When the owner rules that the archiver has the data, and the
    archiver is an account without code, the challenger's bond goes to the
    archiver: the challenge is closed as won, the archiver's count of
    successful challenges grows by one, its stake, its [active] flag and
    [totalStake] stay as they are, and the only transfer pays
    [CHALLENGE_BOND] to the archiver. *)
Theorem resolveChallenge_archiver_won cid m s s' :
  resolveChallenge_cb inert cid true m s = Ok s' ->
  let who := archiver (challengeOf s cid) in
  msg_sender m = owner s /\
  resolved (challengeOf s' cid) = true /\
  archiverWon (challengeOf s' cid) = true /\
  successfulChallenges (archiverOf s' who) = successfulChallenges (archiverOf s who) + 1 /\
  stake (archiverOf s' who) = stake (archiverOf s who) /\
  active (archiverOf s' who) = active (archiverOf s who) /\
  totalStake s' = totalStake s /\
  sent s' = (who, CHALLENGE_BOND) :: sent s /\
  balance s' = balance s - CHALLENGE_BOND.
Proof.
  intros H who. unfold resolveChallenge_cb in H. cbv zeta in H.
  do 3 inv_step H.
  apply negb_false_iff, N.eqb_eq in C.
  apply bind_Ok in H. destruct H as (won & Hwon & H).
  apply bind_Ok in H. destruct H as (s4 & Hs4 & H).
  injection H as <-.
  unfold send_cb, inert in Hs4.
  match type of Hs4 with
  | (if ?b then _ else _) = _ => destruct b; [|discriminate]
  end.
  injection Hs4 as <-.
  unfold add in Hwon. apply checked_Ok in Hwon. destruct Hwon as [-> _].
  split; [assumption|]. subst who.
  clear C0 C1. simp_state. repeat split.
Qed.

Lemma resolveChallenge_archiver_won_witness :
  sent (execute (call_resolveChallenge 0 true) (mkMsg 100%N 0 4) open_challenge)
  = (archiver (challengeOf open_challenge 0), CHALLENGE_BOND) :: sent open_challenge.
Proof.
  apply (resolveChallenge_archiver_won 0 (mkMsg 100%N 0 4) open_challenge
           (execute (call_resolveChallenge 0 true) (mkMsg 100%N 0 4) open_challenge)).
  vm_compute. reflexivity.
Defined.

(** ** Statistics *)

(** X15.  [getArchiverStats] reports the stake, the blob count and a
    success rate between 0 and 100: 100 for an archiver that never lost a
    challenge, never challenged ones included, and the percentage of
    challenges won, rounded down, otherwise. *)
Theorem getArchiverStats_rate a s :
  0 <= successfulChallenges (archiverOf s a) ->
  0 <= failedChallenges (archiverOf s a) ->
  successfulChallenges (archiverOf s a) * 100 <= MAX_UINT256 ->
  successfulChallenges (archiverOf s a) + failedChallenges (archiverOf s a)
    <= MAX_UINT256 ->
  exists rate,
    getArchiverStats a s =
      Ok (stake (archiverOf s a), blobCount (archiverOf s a), rate) /\
    0 <= rate <= 100 /\
    (failedChallenges (archiverOf s a) = 0 -> rate = 100) /\
    (0 < failedChallenges (archiverOf s a) ->
     rate = successfulChallenges (archiverOf s a) * 100 /
            (successfulChallenges (archiverOf s a) + failedChallenges (archiverOf s a))).
Proof.
  intros Hs Hf Hm Hsum. unfold getArchiverStats. cbv zeta.
  set (w := successfulChallenges (archiverOf s a)) in *.
  set (l := failedChallenges (archiverOf s a)) in *.
  unfold add. rewrite checked_in by lia. cbn [bind].
  destruct (w + l =? 0) eqn:Hz; bools; cbn [bind].
  - exists 100. repeat split; lia.
  - unfold mul. rewrite checked_in by lia. cbn [bind].
    eexists. split; [reflexivity|].
    assert (H0 : 0 <= w * 100 / (w + l)) by (apply Z.div_pos; lia).
    assert (H1 : w * 100 / (w + l) <= 100).
    { apply Z.div_le_upper_bound; lia. }
    split; [lia|]. split; [|reflexivity].
    intros Hl. rewrite Hl, Z.add_0_r in *. rewrite Z.mul_comm. apply Z.div_mul. lia.
Qed.

Lemma getArchiverStats_rate_witness :
  exists rate,
    getArchiverStats 1%N slashed_archiver =
      Ok (stake (archiverOf slashed_archiver 1%N),
          blobCount (archiverOf slashed_archiver 1%N), rate) /\
    0 <= rate <= 100.
Proof.
  destruct (getArchiverStats_rate 1%N slashed_archiver) as (rate & H & Hr & _).
  - vm_compute. discriminate.
  - vm_compute. discriminate.
  - vm_compute. discriminate.
  - vm_compute. discriminate.
  - exists rate. split; assumption.
Defined.

(** ** Leaving the registry *)

(** X16.  Withdrawing the whole stake is final: the archiver, paid at an
    account without code, is left with no stake and inactive, and no
    sequence of transactions afterwards, with whatever calls the recipients
    of transfers make back into the registry, makes it active again. *)
Theorem full_withdrawal_is_final amount m s s1 :
  withdrawStake_cb inert amount m s = Ok s1 ->
  amount = stake (archiverOf s (msg_sender m)) ->
  stake (archiverOf s1 (msg_sender m)) = 0 /\
  active (archiverOf s1 (msg_sender m)) = false /\
  (forall depth p cs, wf_program p -> wf_trace cs ->
     active (archiverOf (run_cb depth p cs s1) (msg_sender m)) = false).
Proof.
  intros H Ham.
  set (a := msg_sender m) in *.
  set (r := registeredAt (archiverOf s a)).
  assert (Hfinal : stake (archiverOf s1 a) = 0 /\ Kept a r false s1 /\ r <> 0).
  { unfold withdrawStake_cb in H. cbv zeta in H. fold a in H.
    inv_step H. apply Z.eqb_neq in C. fold r in C.
    inv_step H. inv_step H. inv_step H. inv_step H.
    unfold sub in E. apply checked_Ok in E. destruct E as [-> _].
    rewrite Ham, Z.sub_diag in *.
    assert (Hv0 : Kept a r true v0).
    { eapply _claimRewards_cb_Kept; [apply inert_keeps | exact E0 |].
      split; [reflexivity | auto]. }
    clear E0.
    do 3 inv_step H. change (0 =? 0) with true in E1. cbv iota in E1.
    unfold sub in E. apply checked_Ok in E. destruct E as [-> _].
    unfold mul in E0. apply checked_Ok in E0. destruct E0 as [-> _].
    apply _deactivateArchiver_Ok in E1. destruct E1 as (aa & ai & ->).
    inv_step H. apply send_cb_Ok in E. destruct E as [_ E].
    injection E as <-. injection H as <-.
    destruct Hv0 as [Hr _]. revert Hr. unfold Kept, debited. simp_state.
    intros Hr. repeat split; auto; try discriminate. }
  destruct Hfinal as (Hst & Hk & Hr).
  split; [assumption|]. split.
  - destruct Hk as [_ Hk]. destruct (active (archiverOf s1 a)); [|reflexivity].
    symmetry. now apply Hk.
  - intros depth p cs Hp Hwf.
    destruct (run_cb_Kept a r false depth p cs s1 Hr Hp Hwf Hk) as [_ Hoff].
    destruct (active (archiverOf (run_cb depth p cs s1) a)); [|reflexivity].
    symmetry. now apply Hoff.
Qed.

Lemma full_withdrawal_is_final_witness :
  active (archiverOf
            (run_cb 2 reentering_archiver
               [ (call_addStake, mkMsg 1%N 100000000000000000 6) ]
               (execute (call_withdrawStake 300000000000000000) (mkMsg 1%N 0 5)
                  one_archiver))
            1%N) = false.
Proof.
  apply (full_withdrawal_is_final 300000000000000000 (mkMsg 1%N 0 5) one_archiver
           (execute (call_withdrawStake 300000000000000000) (mkMsg 1%N 0 5)
              one_archiver)).
  - vm_compute. reflexivity.
  - vm_compute. reflexivity.
  - exact reentering_archiver_wf.
  - repeat constructor; unfold MAX_UINT256; simpl; lia.
Defined.

(** ** Stake stranded by rounding *)

(** X17.  The wei that settlements round up are taken from the stakes.
    After [rounding_trace], with nobody running code, archivers 1 and 2
    withdraw their whole stake; archiver 3 still has 0.11 ether staked and
    nothing pending, the registry holds one wei less, and the withdrawal of
    its whole stake reverts with [TransferFailed]. *)
Theorem rounding_strands_stake :
  let s := run_cb 0 (fun _ => [])
             (rounding_trace ++
              [ (call_withdrawStake 100000000000000000, mkMsg 1%N 0 6);
                (call_withdrawStake 110000000000000000, mkMsg 2%N 0 6) ])
             (init 100%N 100%N) in
  stake (archiverOf s 3%N) = 110000000000000000 /\
  totalStake s = 110000000000000000 /\
  pendingRewards 3%N s = Ok 0 /\
  balance s = 109999999999999999 /\
  call_cb inert false (call_withdrawStake 110000000000000000) (mkMsg 3%N 0 7) s
    = Err TransferFailed.
Proof. vm_compute. repeat split; reflexivity. Qed.
